(** * Huffman file compressor (HuffmanEncoding.cpp): shallow embedding

    The C++ functions of [HuffmanEncoding.cpp] are embedded as Rocq
    functions with explicit state passing.  Streams are passed by reference
    in the source, so a function returns the streams it has written to or
    has read only in part.  A run that the source does not finish
    normally (a call of [error], a dereference of a null [Node*], a read of
    a variable the stream extraction left unset) ends in [Abort]. *)

From Stdlib Require Import ZArith Ascii String List Bool Lia Permutation.
From Stdlib Require Import DecimalPos DecimalN DecimalZ.
Import ListNotations.
Open Scope Z_scope.

(** ** Outcomes of a run *)

Inductive abort : Type :=
| ErrorCall (msg : string)      (* [error(msg)] of the Stanford library *)
| NullDereference               (* [p->field] with [p == NULL] *)
| UninitialisedRead             (* an [int] left unset by a failed [>>] *)
| OutOfFuel.                    (* the loop did not stop within the fuel *)

Inductive outcome (A : Type) : Type :=
| Ok (a : A)
| Abort (e : abort).
Arguments Ok {A} a.
Arguments Abort {A} e.

Definition bind {A B : Type} (m : outcome A) (f : A -> outcome B) : outcome B :=
  match m with
  | Ok a => f a
  | Abort e => Abort e
  end.

Notation "x <- m ;; k" := (bind m (fun x => k))
  (at level 61, m at next level, right associativity).

(** ** Machine integers and characters *)

(** [int] is a 32-bit two's complement integer; [int_wrap] is the value an
    arithmetic result takes when it is stored in an [int]. *)
Definition INT_MIN : Z := - 2 ^ 31.
Definition INT_MAX : Z := 2 ^ 31 - 1.
Definition int_wrap (z : Z) : Z := (z + 2 ^ 31) mod 2 ^ 32 - 2 ^ 31.
Definition in_int (z : Z) : Prop := INT_MIN <= z <= INT_MAX.

(** C++ strings and file contents are sequences of 8-bit characters. *)
Definition cstring : Type := list ascii.
Definition lit (s : string) : cstring := list_ascii_of_string s.

(** [typedef int ext_char]: a byte value, or one of the two extra values. *)
Abbreviation ext_char := Z (only parsing).

(** Modelled from the spec: the header HuffmanEncoding.h, which declares
    the two extended characters and [struct Node], is not among the
    sources.  The spec makes the sentinel a value numerically outside the
    byte range (the symbol domain 0-256); [NOT_A_CHAR], the mark of an
    internal node in the source, is the next value. *)
Definition PSEUDO_EOF : ext_char := 256.
Definition NOT_A_CHAR : ext_char := 257.

(** The value [EOF] of the C++ library, which the source tests [get()]
    against; [readBit()] of the bit streams returns it as well when no bit
    is left. *)
Definition EOF : Z := -1.

(** [int(c)] for a character read by [get()], and [char(ch)]. *)
Definition ext_of_char (c : ascii) : ext_char := Z.of_N (N_of_ascii c).
Definition char_of_ext (ch : ext_char) : ascii := ascii_of_N (Z.to_N (ch mod 256)).

(** ** Formatted integers: [out << n], [in >> n], [integerToString] *)

Fixpoint chars_of_uint (u : Decimal.uint) : cstring :=
  match u with
  | Decimal.Nil => []
  | Decimal.D0 u => "0"%char :: chars_of_uint u
  | Decimal.D1 u => "1"%char :: chars_of_uint u
  | Decimal.D2 u => "2"%char :: chars_of_uint u
  | Decimal.D3 u => "3"%char :: chars_of_uint u
  | Decimal.D4 u => "4"%char :: chars_of_uint u
  | Decimal.D5 u => "5"%char :: chars_of_uint u
  | Decimal.D6 u => "6"%char :: chars_of_uint u
  | Decimal.D7 u => "7"%char :: chars_of_uint u
  | Decimal.D8 u => "8"%char :: chars_of_uint u
  | Decimal.D9 u => "9"%char :: chars_of_uint u
  end.

(** [integerToString(n)] of strlib.h, and the text [out << n] writes: the
    decimal digits of an [int], after a minus sign when it is negative. *)
Definition integerToString (n : Z) : cstring :=
  match Z.to_int n with
  | Decimal.Pos u => chars_of_uint u
  | Decimal.Neg u => "-"%char :: chars_of_uint u
  end.

Definition digit_of_char (c : ascii) : option (Decimal.uint -> Decimal.uint) :=
  match c with
  | "0" => Some Decimal.D0 | "1" => Some Decimal.D1 | "2" => Some Decimal.D2 | "3" => Some Decimal.D3
  | "4" => Some Decimal.D4 | "5" => Some Decimal.D5 | "6" => Some Decimal.D6 | "7" => Some Decimal.D7
  | "8" => Some Decimal.D8 | "9" => Some Decimal.D9
  | _ => None
  end%char.

(** The longest run of decimal digits at the front of [s], and the rest. *)
Fixpoint read_digits (s : cstring) : Decimal.uint * cstring :=
  match s with
  | [] => (Decimal.Nil, [])
  | c :: r =>
      match digit_of_char c with
      | Some d => let (u, rest) := read_digits r in (d u, rest)
      | None => (Decimal.Nil, s)
      end
  end.

(** The text [rest] does not go on with a digit. *)
Definition not_a_digit_next (rest : cstring) : Prop :=
  match rest with
  | [] => True
  | c :: _ => digit_of_char c = None
  end.

(** [isspace] in the "C" locale: tab, line feed, vertical tab, form feed,
    carriage return and space. *)
Definition isspace (c : ascii) : bool :=
  let n := N_of_ascii c in
  ((9 <=? n) && (n <=? 13))%N || (n =? 32)%N.

Fixpoint skip_ws (s : cstring) : cstring :=
  match s with
  | c :: r => if isspace c then skip_ws r else s
  | [] => []
  end.

(** [in >> n] for an [int n] when it extracts a number: leading white
    space is skipped, then an optional sign and at least one digit are
    consumed.  [None] when no number is there or it does not fit an [int]
    (what the stream does then is in [extract_int]). *)
Definition read_sign (s : cstring) : bool * cstring :=
  match s with
  | "-"%char :: r => (true, r)
  | "+"%char :: r => (false, r)
  | _ => (false, s)
  end.

Definition read_int (s : cstring) : option (Z * cstring) :=
  let (neg, s) := read_sign (skip_ws s) in
  let (u, rest) := read_digits s in
  match u with
  | Decimal.Nil => None
  | _ =>
      let v := Z.of_int (if neg then Decimal.Neg u else Decimal.Pos u) in
      if (INT_MIN <=? v) && (v <=? INT_MAX) then Some (v, rest) else None
  end.

(** What [in >> n] stores in [n] when characters are there but the
    extraction fails: 0 when there is no number, the nearest [int] when the
    number does not fit. *)
Definition failed_int (s : cstring) : Z :=
  let (neg, s) := read_sign (skip_ws s) in
  match fst (read_digits s) with
  | Decimal.Nil => 0
  | _ => if neg then INT_MIN else INT_MAX
  end.

(** ** Collections of the Stanford library *)

(** Modelled from the spec: map.h is not among the sources.  [Map<K,V>]
    keeps its entries ordered by key and [foreach] visits the keys in that
    order (the iteration order the spec leaves to the implementation); it is
    embedded as an association list kept strictly ascending by key. *)
Module Map.
Section WithValue.
Variable V : Type.

Definition t : Type := list (Z * V).

Definition empty : t := [].

Fixpoint get (m : t) (k : Z) : option V :=
  match m with
  | [] => None
  | (k', v) :: r => if k =? k' then Some v else get r k
  end.

Definition containsKey (m : t) (k : Z) : bool :=
  match get m k with Some _ => true | None => false end.

(** [m[k] = v] *)
Fixpoint put (m : t) (k : Z) (v : V) : t :=
  match m with
  | [] => [(k, v)]
  | (k', v') :: r =>
      if k <? k' then (k, v) :: m
      else if k =? k' then (k, v) :: r
      else (k', v') :: put r k v
  end.

(** [m[k]] read as a value; [dflt] is the value-initialised [V]. *)
Definition at_ (dflt : V) (m : t) (k : Z) : V :=
  match get m k with Some v => v | None => dflt end.

Definition size (m : t) : Z := Z.of_nat (length m).

(** The keys in the order [foreach] visits them. *)
Definition keys (m : t) : list Z := map fst m.
End WithValue.
Arguments empty {V}.
Arguments get {V} m k.
Arguments containsKey {V} m k.
Arguments put {V} m k v.
Arguments at_ {V} dflt m k.
Arguments size {V} m.
Arguments keys {V} m.
End Map.

(** Modelled from the spec: the priority queue header is not among the
    sources.  [PriorityQueue<T>] is a min-priority queue; among equal
    priorities the element enqueued first is dequeued first (the stable
    insertion order the spec names as the tie-break).  It is embedded as the
    list of its elements in dequeue order. *)
Module PriorityQueue.
Section WithValue.
Variable T : Type.

Definition t : Type := list (T * Z).

Definition empty : t := [].

Definition size (q : t) : Z := Z.of_nat (length q).

Fixpoint enqueue (q : t) (x : T) (priority : Z) : t :=
  match q with
  | [] => [(x, priority)]
  | (y, p) :: r =>
      if priority <? p then (x, priority) :: q
      else (y, p) :: enqueue r x priority
  end.

Definition dequeue (q : t) : outcome (T * t) :=
  match q with
  | [] => Abort (ErrorCall "dequeue: Attempting to dequeue an empty queue")
  | (x, _) :: r => Ok (x, r)
  end.
End WithValue.
Arguments empty {T}.
Arguments size {T} q.
Arguments enqueue {T} q x priority.
Arguments dequeue {T} q.
End PriorityQueue.

(** ** Streams *)

Definition bits_of_char (c : ascii) : list bool :=
  let (b0, b1, b2, b3, b4, b5, b6, b7) := c in [b0; b1; b2; b3; b4; b5; b6; b7].

Definition char_of_bits (l : list bool) : ascii :=
  Ascii (nth 0 l false) (nth 1 l false) (nth 2 l false) (nth 3 l false)
        (nth 4 l false) (nth 5 l false) (nth 6 l false) (nth 7 l false).

(** Modelled from the spec: the bit stream classes are not among the
    sources.  An input stream holds the bytes of its file, the bytes not yet
    read, and the bits of the current byte that [readBit] has not yet
    returned (least significant bit first).  A byte-level read drops those
    bits: the next [readBit] starts at the next byte. *)
Record ibstream : Type := mk_ibstream {
  whole : cstring;
  unread : cstring;
  curBits : list bool
}.

Definition open_in (content : cstring) : ibstream :=
  {| whole := content; unread := content; curBits := [] |}.

Definition rewind (s : ibstream) : ibstream := open_in (whole s).

Definition exhaust (s : ibstream) : ibstream :=
  {| whole := whole s; unread := []; curBits := [] |}.

(** [s.get()] *)
Definition get (s : ibstream) : Z * ibstream :=
  match unread s with
  | [] => (EOF, exhaust s)
  | c :: r => (ext_of_char c, {| whole := whole s; unread := r; curBits := [] |})
  end.

(** [s >> n].  The source never tests the stream after it.  When the
    extraction fails on characters that are there, [n] is set all the same
    (see [failed_int]) and the stream has failed: from then on [get()] and
    [readBit()] return [EOF] and [>>] does nothing, as on an exhausted
    stream, which is how the failed stream is embedded.  When nothing but
    white space is left, [>>] stores nothing: the source then reads an [n]
    that was never set. *)
Definition extract_int (s : ibstream) : outcome (Z * ibstream) :=
  match read_int (unread s) with
  | Some (n, r) => Ok (n, {| whole := whole s; unread := r; curBits := [] |})
  | None =>
      match skip_ws (unread s) with
      | [] => Abort UninitialisedRead
      | _ => Ok (failed_int (unread s), exhaust s)
      end
  end.

(** [s.readBit()]: the next bit as 0 or 1, or [EOF] when no byte is left.
    (A byte always has eight bits; the last case is never taken.) *)
Definition readBit (s : ibstream) : Z * ibstream :=
  match curBits s with
  | b :: bs => (Z.b2z b, {| whole := whole s; unread := unread s; curBits := bs |})
  | [] =>
      match unread s with
      | [] => (EOF, exhaust s)
      | c :: r =>
          match bits_of_char c with
          | b :: bs => (Z.b2z b, {| whole := whole s; unread := r; curBits := bs |})
          | [] => (EOF, exhaust s)
          end
      end
  end.

(** The bits [readBit] is still going to return. *)
Definition pending (s : ibstream) : list bool :=
  curBits s ++ flat_map bits_of_char (unread s).

(** Modelled from the spec: an output bit stream, the "write one bit"
    collaborator, holds the bytes completed so far and the bits of the byte
    being filled (least significant bit first).  The file holds that byte
    too, its missing bits zero: the padding up to the byte boundary. *)
Record obstream : Type := mk_obstream {
  written : cstring;
  curByte : list bool
}.

Definition open_out : obstream := {| written := []; curByte := [] |}.

Definition contents (o : obstream) : cstring :=
  match curByte o with
  | [] => written o
  | bs => written o ++ [char_of_bits bs]
  end.

(** [o << c] for a character and [o << s] for text: written after the
    byte being filled, which is thereby closed. *)
Definition put_char (o : obstream) (c : ascii) : obstream :=
  {| written := contents o ++ [c]; curByte := [] |}.

Definition put_cstring (o : obstream) (s : cstring) : obstream :=
  fold_left put_char s o.

(** [o << n] for an [int] *)
Definition put_int (o : obstream) (n : Z) : obstream :=
  put_cstring o (integerToString n).

(** [o.writeBit(bit)] *)
Definition writeBit (o : obstream) (bit : bool) : obstream :=
  let bs := curByte o ++ [bit] in
  if (length bs =? 8)%nat
  then {| written := written o ++ [char_of_bits bs]; curByte := [] |}
  else {| written := written o; curByte := bs |}.

(** A byte output stream ([ostream]) is the text written to it. *)
Definition ostream : Type := cstring.

(** ** Trees *)

(** A [Node*] is [NULL] or the address of a node the pointer owns; the
    fields are those the source reads and writes. *)
Inductive NodePtr : Type :=
| NULL
| Node (character : ext_char) (zero one : NodePtr) (weight : Z).

Definition deref {A : Type} (p : NodePtr)
    (f : ext_char -> NodePtr -> NodePtr -> Z -> outcome A) : outcome A :=
  match p with
  | NULL => Abort NullDereference
  | Node c z o w => f c z o w
  end.

Definition character_of (p : NodePtr) : outcome ext_char :=
  deref p (fun c _ _ _ => Ok c).
Definition weight_of (p : NodePtr) : outcome Z :=
  deref p (fun _ _ _ w => Ok w).
Definition zero_of (p : NodePtr) : outcome NodePtr :=
  deref p (fun _ z _ _ => Ok z).
Definition one_of (p : NodePtr) : outcome NodePtr :=
  deref p (fun _ _ o _ => Ok o).

Notation "' p <- m ;; k" := (bind m (fun 'p => k))
  (at level 61, p pattern, m at next level, right associativity).

(** ** The functions of HuffmanEncoding.cpp *)

(** The loop of [getFrequencyTable]: [file.get()] hands over the unread
    characters one by one and the loop stops at [EOF], so the loop is a
    recursion on the unread characters. *)
Fixpoint getFrequencyTable_loop (chars : cstring) (freqTable : Map.t Z) : Map.t Z :=
  match chars with
  | [] => freqTable
  | c :: rest =>
      let currChar := ext_of_char c in
      getFrequencyTable_loop rest
        (if Map.containsKey freqTable currChar
         then Map.put freqTable currChar (int_wrap (Map.at_ 0 freqTable currChar + 1))
         else Map.put freqTable currChar 1)
  end.

Definition getFrequencyTable (file : ibstream) : Map.t Z :=
  Map.put (getFrequencyTable_loop (unread file) Map.empty) PSEUDO_EOF 1.

Definition enqueueNodes (frequencies : Map.t Z) (pQueue : PriorityQueue.t NodePtr)
    : PriorityQueue.t NodePtr :=
  fold_left
    (fun q currChar =>
       let weight := Map.at_ 0 frequencies currChar in
       PriorityQueue.enqueue q (Node currChar NULL NULL weight) weight)
    (Map.keys frequencies) pQueue.

(** The loop of [mergeNodes]; every round takes one element off the queue,
    so the size of the queue bounds the number of rounds. *)
Fixpoint mergeNodes_loop (fuel : nat) (pQueue : PriorityQueue.t NodePtr) : outcome NodePtr :=
  match fuel with
  | O => Abort OutOfFuel
  | S fuel' =>
      if PriorityQueue.size pQueue =? 1
      then '(result, emptied) <- PriorityQueue.dequeue pQueue ;; Ok result
      else
        '(zero, q1) <- PriorityQueue.dequeue pQueue ;;
        '(one, q2) <- PriorityQueue.dequeue q1 ;;
        wz <- weight_of zero ;;
        wo <- weight_of one ;;
        let weight := int_wrap (wz + wo) in
        mergeNodes_loop fuel' (PriorityQueue.enqueue q2 (Node NOT_A_CHAR zero one weight) weight)
  end.

Definition mergeNodes (pQueue : PriorityQueue.t NodePtr) : outcome NodePtr :=
  mergeNodes_loop (S (length pQueue)) pQueue.

Definition buildEncodingTree (frequencies : Map.t Z) : outcome NodePtr :=
  mergeNodes (enqueueNodes frequencies PriorityQueue.empty).

Fixpoint freeTree (root : NodePtr) : outcome unit :=
  match root with
  | NULL => Abort NullDereference
  | Node c zero one _ =>
      if negb (c =? NOT_A_CHAR) then Ok tt
      else _ <- freeTree zero ;; _ <- freeTree one ;; Ok tt
  end.

(** The [for] loop shared by [isCorrectCode] and [searchCodeInTree]: one
    step down per character of [code], to [zero] on ['0'] and to [one] on
    any other character. *)
Fixpoint follow (currNode : NodePtr) (code : cstring) : outcome NodePtr :=
  match code with
  | [] => Ok currNode
  | c :: rest =>
      next <- (if Ascii.eqb c "0" then zero_of currNode else one_of currNode) ;;
      follow next rest
  end.

Definition isCorrectCode (fromRoot : NodePtr) (code : cstring) (character : ext_char)
    : outcome bool :=
  currNode <- follow fromRoot code ;;
  c <- character_of currNode ;;
  Ok (c =? character).

Definition searchCodeInTree (root : NodePtr) (code : cstring) : outcome ext_char :=
  currNode <- follow root code ;;
  character_of currNode.

Fixpoint searchCharacterInTree (root : NodePtr) (character : ext_char) : outcome cstring :=
  match root with
  | NULL => Abort NullDereference
  | Node c zero one _ =>
      if negb (c =? NOT_A_CHAR) then Ok []
      else
        r0 <- searchCharacterInTree zero character ;;
        let result := lit "0" ++ r0 in
        ok0 <- isCorrectCode root result character ;;
        if ok0 then Ok result
        else
          r1 <- searchCharacterInTree one character ;;
          let result := lit "1" ++ r1 in
          ok1 <- isCorrectCode root result character ;;
          if ok1 then Ok result else Ok []
  end.

Definition writeBits (outfile : obstream) (code : cstring) : obstream :=
  fold_left (fun o c => writeBit o (negb (Ascii.eqb c "0"))) code outfile.

(** The reading loop of [encodeFile], a recursion on the unread characters
    as in [getFrequencyTable_loop]. *)
Fixpoint encodeFile_loop (chars : cstring) (encodingTree : NodePtr)
    (encodingMap : Map.t cstring) (outfile : obstream) : outcome unit * obstream :=
  match chars with
  | [] => (Ok tt, outfile)
  | c :: rest =>
      let currChar := ext_of_char c in
      if Map.containsKey encodingMap currChar
      then
        let code := Map.at_ [] encodingMap currChar in
        encodeFile_loop rest encodingTree encodingMap (writeBits outfile code)
      else
        match searchCharacterInTree encodingTree currChar with
        | Abort e => (Abort e, outfile)
        | Ok code =>
            encodeFile_loop rest encodingTree (Map.put encodingMap currChar code)
              (writeBits outfile code)
        end
  end.

Definition encodeFile (infile : ibstream) (encodingTree : NodePtr) (outfile : obstream)
    : outcome unit * obstream :=
  match encodeFile_loop (unread infile) encodingTree Map.empty outfile with
  | (Abort e, outfile) => (Abort e, outfile)
  | (Ok _, outfile) =>
      match searchCharacterInTree encodingTree PSEUDO_EOF with
      | Abort e => (Abort e, outfile)
      | Ok code => (Ok tt, writeBits outfile code)
      end
  end.

(** The loop of [decodeFile].  Nothing bounds its rounds in the source (it
    stops only when [searchCodeInTree] returns [PSEUDO_EOF]), so the
    embedding counts them against [fuel]. *)
Fixpoint decodeFile_loop (fuel : nat) (infile : ibstream) (encodingTree : NodePtr)
    (code : cstring) (file : ostream) : outcome unit * ibstream * ostream :=
  match fuel with
  | O => (Abort OutOfFuel, infile, file)
  | S fuel' =>
      let (bit, infile) := readBit infile in
      let code := code ++ integerToString bit in
      match searchCodeInTree encodingTree code with
      | Abort e => (Abort e, infile, file)
      | Ok character =>
          if character =? PSEUDO_EOF then (Ok tt, infile, file)
          else if negb (character =? NOT_A_CHAR)
          then decodeFile_loop fuel' infile encodingTree [] (file ++ [char_of_ext character])
          else decodeFile_loop fuel' infile encodingTree code file
      end
  end.

Definition decodeFile (fuel : nat) (infile : ibstream) (encodingTree : NodePtr)
    (file : ostream) : outcome unit * ibstream * ostream :=
  decodeFile_loop fuel infile encodingTree [] file.

Definition writeFileHeader (outfile : obstream) (frequencies : Map.t Z)
    : outcome unit * obstream :=
  if negb (Map.containsKey frequencies PSEUDO_EOF)
  then (Abort (ErrorCall "No PSEUDO_EOF defined."), outfile)
  else
    let outfile := put_char (put_int outfile (int_wrap (Map.size frequencies - 1))) " " in
    (Ok tt,
     fold_left
       (fun out ch =>
          if ch =? PSEUDO_EOF then out
          else put_char (put_int (put_char out (char_of_ext ch))
                                 (Map.at_ 0 frequencies ch)) " ")
       (Map.keys frequencies) outfile).

(** The [for] loop of [readFileHeader], [n] rounds still to go. *)
Fixpoint readFileHeader_loop (n : nat) (infile : ibstream) (result : Map.t Z)
    : outcome (Map.t Z * ibstream) :=
  match n with
  | O => Ok (result, infile)
  | S n' =>
      let (ch, infile) := get infile in
      '(frequency, infile) <- extract_int infile ;;
      let (_, infile) := get infile in
      readFileHeader_loop n' infile (Map.put result ch frequency)
  end.

Definition readFileHeader (infile : ibstream) : outcome (Map.t Z * ibstream) :=
  '(numValues, infile) <- extract_int infile ;;
  let (_, infile) := get infile in
  '(result, infile) <- readFileHeader_loop (Z.to_nat numValues) infile Map.empty ;;
  Ok (Map.put result PSEUDO_EOF 1, infile).

Definition compress (infile : ibstream) (outfile : obstream) : outcome unit * obstream :=
  let frequencyTable := getFrequencyTable infile in
  match writeFileHeader outfile frequencyTable with
  | (Abort e, outfile) => (Abort e, outfile)
  | (Ok _, outfile) =>
      match buildEncodingTree frequencyTable with
      | Abort e => (Abort e, outfile)
      | Ok rootEncodingTree =>
          match encodeFile (rewind infile) rootEncodingTree outfile with
          | (Abort e, outfile) => (Abort e, outfile)
          | (Ok _, outfile) => (freeTree rootEncodingTree, outfile)
          end
      end
  end.

Definition decompress (fuel : nat) (infile : ibstream) (outfile : ostream)
    : outcome unit * ostream :=
  match readFileHeader infile with
  | Abort e => (Abort e, outfile)
  | Ok (frequencyTable, infile) =>
      match buildEncodingTree frequencyTable with
      | Abort e => (Abort e, outfile)
      | Ok rootEncodingTree =>
          match decodeFile fuel infile rootEncodingTree outfile with
          | (Abort e, _, outfile) => (Abort e, outfile)
          | (Ok _, _, outfile) => (freeTree rootEncodingTree, outfile)
          end
      end
  end.

(** ** Notions the properties are stated with *)

(** Invariant of [Map]: the keys are strictly ascending. *)
Fixpoint ordered {V : Type} (m : Map.t V) : bool :=
  match m with
  | [] => true
  | (k, _) :: r => forallb (fun e => k <? fst e) r && ordered r
  end.

(** An entry with a byte key and an [int] count. *)
Definition entry_fits (e : ext_char * Z) : Prop :=
  0 <= fst e <= 255 /\ in_int (snd e).

(** A frequency map as [getFrequencyTable] and [readFileHeader] make it:
    byte keys with [int] counts, and the sentinel. *)
Definition table_fits (m : Map.t Z) : Prop :=
  forall e, In e m -> fst e = PSEUDO_EOF \/ entry_fits e.

(** An encoding tree: a node marked [NOT_A_CHAR] has two subtrees, any
    other node carries a symbol and has none. *)
Fixpoint well_formed (t : NodePtr) : bool :=
  match t with
  | NULL => false
  | Node c zero one _ =>
      if c =? NOT_A_CHAR then well_formed zero && well_formed one
      else
        match zero, one with
        | NULL, NULL => true
        | _, _ => false
        end
  end.

(** The leaves of a tree from left to right, each with the branch choices
    ([false] for zero, [true] for one) on the path from the root. *)
Fixpoint leaf_codes (t : NodePtr) : list (ext_char * list bool) :=
  match t with
  | NULL => []
  | Node c NULL NULL _ => [(c, [])]
  | Node _ zero one _ =>
      map (fun e => (fst e, false :: snd e)) (leaf_codes zero)
      ++ map (fun e => (fst e, true :: snd e)) (leaf_codes one)
  end.

Definition leaves (t : NodePtr) : list ext_char := map fst (leaf_codes t).
Definition codes (t : NodePtr) : list (list bool) := map snd (leaf_codes t).

(** The symbols at the leaves of the trees in a queue. *)
Definition queue_leaves (q : PriorityQueue.t NodePtr) : list ext_char :=
  flat_map (fun e => leaves (fst e)) q.

Definition is_prefix (p q : list bool) : Prop := exists r, q = p ++ r.

(** No code at one position is a prefix of the code at another. *)
Definition prefix_free (l : list (list bool)) : Prop :=
  forall i j p q,
    i <> j -> nth_error l i = Some p -> nth_error l j = Some q -> ~ is_prefix p q.

(** A code as the text [searchCharacterInTree] returns. *)
Definition text_of_bits (p : list bool) : cstring :=
  map (fun b : bool => if b then "1"%char else "0"%char) p.

(** The bits [writeBits] writes for a text: 0 for ['0'], 1 for any other
    character. *)
Definition bits_of_text (s : cstring) : list bool :=
  map (fun c => negb (Ascii.eqb c "0")) s.

(** The bits [encodeFile] writes for one symbol and for a whole input. *)
Definition code_of (t : NodePtr) (x : ext_char) : list bool :=
  match searchCharacterInTree t x with
  | Ok s => bits_of_text s
  | Abort _ => []
  end.

Definition encoding (t : NodePtr) (chars : cstring) : list bool :=
  flat_map (fun c => code_of t (ext_of_char c)) chars ++ code_of t PSEUDO_EOF.

(** The loop of the reference decoder, from the words of the spec, with
    the cursor at a node that has children: the cursor moves to the zero or
    one child per consumed bit; at a leaf other than the sentinel the byte
    of its symbol is written and the cursor returns to the root; at the
    sentinel leaf decoding stops.  [None] when the bits run out first or
    there is no child to move to. *)
Fixpoint reference_decode (root cursor : NodePtr) (bits : list bool) (out : ostream)
    : option (ostream * list bool) :=
  match bits with
  | [] => None
  | b :: rest =>
      match cursor with
      | NULL => None
      | Node _ zero one _ =>
          match (if b then one else zero) with
          | NULL => None
          | Node c NULL NULL _ =>
              if c =? PSEUDO_EOF then Some (out, rest)
              else reference_decode root root rest (out ++ [char_of_ext c])
          | next => reference_decode root next rest out
          end
      end
  end.

(** The reference decoder, from the words of the spec: the cursor starts
    at the root.  When the root is itself a leaf, the degenerate tree of the
    spec, no bit is read: at the sentinel decoding stops at once, and at any
    other symbol it would write that symbol for ever.  Otherwise the loop
    above runs from the root. *)
Definition reference_decoder (root : NodePtr) (bits : list bool) (out : ostream)
    : option (ostream * list bool) :=
  match root with
  | Node c NULL NULL _ => if c =? PSEUDO_EOF then Some (out, bits) else None
  | _ => reference_decode root root bits out
  end.

(** The header layout, from the words of the spec: the number of symbols
    other than the sentinel in decimal and a space, then per such symbol its
    byte, its frequency in decimal and a space. *)
Definition header_entry (e : ext_char * Z) : cstring :=
  char_of_ext (fst e) :: integerToString (snd e) ++ [" "%char].

Definition header_layout (m : Map.t Z) : cstring :=
  let entries := filter (fun e => negb (fst e =? PSEUDO_EOF)) m in
  integerToString (Z.of_nat (length entries)) ++ [" "%char]
  ++ flat_map header_entry entries.

(** A failure signalled to the caller, as [error] does. *)
Definition signals_failure {A : Type} (r : outcome A) : Prop :=
  exists msg, r = Abort (ErrorCall msg).

(** The file [compress] leaves for the input [S], and what [decompress]
    makes of a file. *)
Definition compressed (S : cstring) : cstring :=
  contents (snd (compress (open_in S) open_out)).

Definition decompressed (fuel : nat) (file : cstring) : outcome unit * ostream :=
  decompress fuel (open_in file) [].

(** A worked example: the frequency table and the tree of the input "aab"
    (codes: a = 0, b = 10, sentinel = 11). *)
Definition table_aab : Map.t Z := [(97, 2); (98, 1); (PSEUDO_EOF, 1)].

Definition tree_aab : NodePtr :=
  Node NOT_A_CHAR (Node 97 NULL NULL 2)
    (Node NOT_A_CHAR (Node 98 NULL NULL 1) (Node PSEUDO_EOF NULL NULL 1) 2) 4.

(** What [n] calls of [readBit] return, as the text [decodeFile] makes
    of it for its code, and the stream they leave. *)
Fixpoint reads (n : nat) (infile : ibstream) : cstring * ibstream :=
  match n with
  | O => ([], infile)
  | S n' =>
      let (bit, infile) := readBit infile in
      let (text, infile) := reads n' infile in
      (integerToString bit ++ text, infile)
  end.

(** [code] is a text at which [decodeFile] writes the symbol [x]. *)
Definition decodes_to (t : NodePtr) (code : cstring) (x : ext_char) : Prop :=
  searchCodeInTree t code = Ok x /\ x <> PSEUDO_EOF /\ x <> NOT_A_CHAR.

(** ** Notions for the further properties *)

(** The symbols at the leaves with their weights, left to right. *)
Fixpoint leaf_entries (t : NodePtr) : list (ext_char * Z) :=
  match t with
  | NULL => []
  | Node c NULL NULL w => [(c, w)]
  | Node _ zero one _ => leaf_entries zero ++ leaf_entries one
  end.

(** [t->weight], taken as 0 for the null pointer. *)
Definition weight (t : NodePtr) : Z :=
  match t with
  | NULL => 0
  | Node _ _ _ w => w
  end.

(** What [mergeNodes] makes of its nodes: a node with a child is marked
    [NOT_A_CHAR], has both children, carries the sum of their weights as an
    [int], and its [zero] child, dequeued first, is not the heavier one. *)
Fixpoint merged (t : NodePtr) : Prop :=
  match t with
  | NULL => True
  | Node _ NULL NULL _ => True
  | Node c zero one w =>
      c = NOT_A_CHAR /\ zero <> NULL /\ one <> NULL /\
      w = int_wrap (weight zero + weight one) /\
      weight zero <= weight one /\
      merged zero /\ merged one
  end.

(** A queue of trees as [enqueueNodes] and [mergeNodes] keep it: in dequeue
    order the priorities ascend, and every element is a tree of the above
    kind enqueued with its weight as priority. *)
Fixpoint queue_sorted (q : PriorityQueue.t NodePtr) : Prop :=
  match q with
  | [] => True
  | (_, p) :: r => (forall e, In e r -> p <= snd e) /\ queue_sorted r
  end.

Definition queue_entry_ok (e : NodePtr * Z) : Prop :=
  fst e <> NULL /\ snd e = weight (fst e) /\ merged (fst e).

Definition queue_entries (q : PriorityQueue.t NodePtr) : list (ext_char * Z) :=
  flat_map (fun e => leaf_entries (fst e)) q.

(** The sum of the frequencies of a list of entries. *)
Definition total (l : list (ext_char * Z)) : Z :=
  fold_right (fun e a => snd e + a) 0 l.

(** How often the symbol [k] occurs among the characters [S]. *)
Definition occurrences (S : cstring) (k : ext_char) : Z :=
  Z.of_nat (count_occ Z.eq_dec (map ext_of_char S) k).

(** * Properties *)

(** ** Formatted integers *)

Lemma read_digits_chars_of_uint u rest :
  not_a_digit_next rest -> read_digits (chars_of_uint u ++ rest) = (u, rest).
Proof.
  intros Hrest.
  induction u; simpl; try (rewrite IHu; reflexivity).
  destruct rest as [|c r]; [reflexivity|].
  simpl in *. rewrite Hrest. reflexivity.
Qed.

Lemma digit_not_space c :
  digit_of_char c <> None -> isspace c = false /\ forall r, read_sign (c :: r) = (false, c :: r).
Proof.
  destruct c as [[] [] [] [] [] [] [] []]; simpl; intros H;
    try (exfalso; apply H; reflexivity); split; reflexivity.
Qed.

Lemma chars_of_uint_head u :
  u <> Decimal.Nil ->
  exists c r, chars_of_uint u = c :: r /\ digit_of_char c <> None.
Proof.
  destruct u; [intros H; contradiction H; reflexivity | ..];
    intros _; simpl; eexists; eexists; (split; [reflexivity | discriminate]).
Qed.

Lemma read_int_unsigned u rest :
  u <> Decimal.Nil -> not_a_digit_next rest -> in_int (Z.of_int (Decimal.Pos u)) ->
  read_int (chars_of_uint u ++ rest) = Some (Z.of_int (Decimal.Pos u), rest).
Proof.
  intros Hu Hrest [Hlo Hhi].
  destruct (chars_of_uint_head u Hu) as (c & r & Hc & Hd).
  destruct (digit_not_space c Hd) as [Hsp Hsg].
  unfold read_int. rewrite Hc. simpl. rewrite Hsp, Hsg.
  change (c :: r ++ rest) with ((c :: r) ++ rest). rewrite <- Hc.
  rewrite read_digits_chars_of_uint by assumption.
  apply Z.leb_le in Hlo, Hhi.
  destruct u; [contradiction Hu; reflexivity | ..];
    rewrite Hlo, Hhi; reflexivity.
Qed.

Lemma read_int_negative u rest :
  u <> Decimal.Nil -> not_a_digit_next rest -> in_int (Z.of_int (Decimal.Neg u)) ->
  read_int ("-"%char :: chars_of_uint u ++ rest) = Some (Z.of_int (Decimal.Neg u), rest).
Proof.
  intros Hu Hrest [Hlo Hhi].
  unfold read_int.
  change (skip_ws ("-"%char :: chars_of_uint u ++ rest))
    with ("-"%char :: chars_of_uint u ++ rest).
  change (read_sign ("-"%char :: chars_of_uint u ++ rest))
    with (true, chars_of_uint u ++ rest).
  cbv beta iota.
  rewrite read_digits_chars_of_uint by assumption.
  apply Z.leb_le in Hlo, Hhi.
  destruct u; [contradiction Hu; reflexivity | ..];
    rewrite Hlo, Hhi; reflexivity.
Qed.

(** Reading back the decimal text of an [int] gives the [int] and stops
    right after the text. *)
Lemma read_int_integerToString z rest :
  in_int z -> not_a_digit_next rest ->
  read_int (integerToString z ++ rest) = Some (z, rest).
Proof.
  intros Hz Hrest.
  rewrite <- (DecimalZ.of_to z) in Hz.
  rewrite <- (DecimalZ.of_to z) at 2.
  unfold integerToString.
  destruct z as [|p|p]; cbn [Z.to_int] in *.
  - apply read_int_unsigned; [discriminate | assumption | assumption].
  - apply read_int_unsigned;
      [apply DecimalPos.Unsigned.to_uint_nonnil | assumption | assumption].
  - apply read_int_negative;
      [apply DecimalPos.Unsigned.to_uint_nonnil | assumption | assumption].
Qed.

Lemma int_wrap_id z : in_int z -> int_wrap z = z.
Proof.
  unfold in_int, INT_MIN, INT_MAX, int_wrap. intros H.
  rewrite Z.mod_small by lia. lia.
Qed.

Lemma int_wrap_in_int z : in_int (int_wrap z).
Proof.
  unfold in_int, INT_MIN, INT_MAX, int_wrap.
  pose proof (Z.mod_pos_bound (z + 2 ^ 31) (2 ^ 32) ltac:(lia)). lia.
Qed.

(** ** Maps *)

Section MapFacts.
Context {V : Type}.
Implicit Types (m : Map.t V) (k : Z) (v : V).

Lemma ordered_cons k v m :
  ordered ((k, v) :: m) = true <->
  (forall e, In e m -> k < fst e) /\ ordered m = true.
Proof.
  simpl. rewrite andb_true_iff, forallb_forall.
  split; intros [H1 H2]; (split; [|assumption]); intros e He;
    specialize (H1 e He); [apply Z.ltb_lt | apply Z.ltb_lt]; assumption.
Qed.

Lemma get_put_same m k v : Map.get (Map.put m k v) k = Some v.
Proof.
  induction m as [|[k' v'] r IH]; simpl.
  - rewrite Z.eqb_refl. reflexivity.
  - destruct (k <? k') eqn:Hlt; simpl.
    + rewrite Z.eqb_refl. reflexivity.
    + destruct (k =? k') eqn:Heq; simpl.
      * rewrite Z.eqb_refl. reflexivity.
      * rewrite Heq. exact IH.
Qed.

Lemma get_put_other m k j v : j <> k -> Map.get (Map.put m k v) j = Map.get m j.
Proof.
  intros Hjk. apply Z.eqb_neq in Hjk.
  induction m as [|[k' v'] r IH]; simpl.
  - rewrite Hjk. reflexivity.
  - destruct (k <? k') eqn:Hlt; simpl.
    + rewrite Hjk. reflexivity.
    + destruct (k =? k') eqn:Heq; simpl.
      * apply Z.eqb_eq in Heq. subst k'. rewrite Hjk. reflexivity.
      * rewrite IH. reflexivity.
Qed.

Lemma put_In m k v e : In e (Map.put m k v) -> e = (k, v) \/ In e m.
Proof.
  induction m as [|[k' v'] r IH]; simpl.
  - intros [H|[]]; auto.
  - destruct (k <? k'); [|destruct (k =? k')]; simpl; intros H.
    + destruct H as [H|[H|H]]; auto.
    + destruct H as [H|H]; auto.
    + destruct H as [H|H]; auto. destruct (IH H); auto.
Qed.

Lemma ordered_put m k v : ordered m = true -> ordered (Map.put m k v) = true.
Proof.
  induction m as [|[k' v'] r IH]; intros Hm.
  - reflexivity.
  - apply ordered_cons in Hm. destruct Hm as [Hlow Hr].
    cbn [Map.put]. destruct (k <? k') eqn:Hlt; [|destruct (k =? k') eqn:Heq].
    + apply Z.ltb_lt in Hlt. apply ordered_cons. split.
      * intros e [<-|He]; simpl; [assumption|]. specialize (Hlow e He). lia.
      * apply ordered_cons. auto.
    + apply Z.eqb_eq in Heq. subst k'. apply ordered_cons. auto.
    + apply Z.ltb_ge in Hlt. apply Z.eqb_neq in Heq.
      apply ordered_cons. split; [|auto].
      intros e He. destruct (put_In _ _ _ _ He) as [->|He']; simpl; [lia|auto].
Qed.

Lemma put_last m k v :
  (forall e, In e m -> fst e < k) -> Map.put m k v = m ++ [(k, v)].
Proof.
  induction m as [|[k' v'] r IH]; intros H; simpl; [reflexivity|].
  pose proof (H (k', v') (or_introl eq_refl)) as Hk. simpl in Hk.
  destruct (k <? k') eqn:Hlt; [apply Z.ltb_lt in Hlt; lia|].
  destruct (k =? k') eqn:Heq; [apply Z.eqb_eq in Heq; lia|].
  rewrite IH; [reflexivity|]. intros e He. apply H. right. exact He.
Qed.

Lemma get_In m k v : Map.get m k = Some v -> In (k, v) m.
Proof.
  induction m as [|[k' v'] r IH]; simpl; [discriminate|].
  destruct (k =? k') eqn:Heq.
  - apply Z.eqb_eq in Heq. subst k'. intros [= ->]. left. reflexivity.
  - intros H. right. auto.
Qed.

Lemma get_none_not_key m k : Map.get m k = None -> ~ In k (Map.keys m).
Proof.
  induction m as [|[k' v'] r IH]; simpl; [tauto|].
  destruct (k =? k') eqn:Heq; [discriminate|].
  apply Z.eqb_neq in Heq. intros H [Hk|Hk]; [congruence | exact (IH H Hk)].
Qed.

(** In an ordered map, looking up the keys gives back the entries. *)
Lemma entries_at d m :
  ordered m = true -> map (fun k => (k, Map.at_ d m k)) (Map.keys m) = m.
Proof.
  induction m as [|[k v] r IH]; intros Hm; [reflexivity|].
  apply ordered_cons in Hm. destruct Hm as [Hlow Hr].
  cbn [Map.keys map fst]. unfold Map.at_ at 1. cbn [Map.get].
  rewrite Z.eqb_refl. f_equal.
  rewrite <- (IH Hr) at 2. apply map_ext_in.
  intros j Hj. unfold Map.keys in Hj. apply in_map_iff in Hj.
  destruct Hj as (e & <- & He). specialize (Hlow e He).
  unfold Map.at_. cbn [Map.get].
  destruct (fst e =? k) eqn:Heq; [apply Z.eqb_eq in Heq; lia | reflexivity].
Qed.

(** An ordered map has one entry per key. *)
Lemma filter_other_keys m k v :
  ordered m = true -> Map.get m k = Some v ->
  Z.of_nat (length (filter (fun e => negb (fst e =? k)) m)) = Map.size m - 1.
Proof.
  unfold Map.size.
  induction m as [|[k' v'] r IH]; intros Hm Hget; [discriminate|].
  apply ordered_cons in Hm. destruct Hm as [Hlow Hr].
  cbn [Map.get] in Hget. cbn [filter fst].
  destruct (k =? k') eqn:Heq.
  - apply Z.eqb_eq in Heq. subst k'. rewrite Z.eqb_refl. cbn [negb].
    replace (filter (fun e => negb (fst e =? k)) r) with r.
    + cbn [length]. lia.
    + symmetry. apply forallb_filter_id. apply forallb_forall.
      intros e He. specialize (Hlow e He).
      destruct (fst e =? k) eqn:E; [apply Z.eqb_eq in E; lia | reflexivity].
  - rewrite Z.eqb_sym, Heq. cbn [negb length].
    specialize (IH Hr Hget). lia.
Qed.
End MapFacts.

(** ** Writing text *)

Lemma contents_put_char o c : contents (put_char o c) = contents o ++ [c].
Proof. reflexivity. Qed.

Lemma contents_put_cstring s : forall o,
  contents (put_cstring o s) = contents o ++ s.
Proof.
  unfold put_cstring.
  induction s as [|c s IH]; intros o; cbn [fold_left].
  - rewrite app_nil_r. reflexivity.
  - rewrite IH, contents_put_char, <- app_assoc. reflexivity.
Qed.

Lemma contents_put_int o n : contents (put_int o n) = contents o ++ integerToString n.
Proof. apply contents_put_cstring. Qed.

Lemma curByte_put_char o c : curByte (put_char o c) = [].
Proof. reflexivity. Qed.

(** ** The header writer *)

(** One round of the [foreach] of [writeFileHeader], on an entry. *)
Lemma header_rounds_contents (es : list (ext_char * Z)) : forall out,
  contents
    (fold_left
       (fun out e =>
          if fst e =? PSEUDO_EOF then out
          else put_char (put_int (put_char out (char_of_ext (fst e))) (snd e)) " ")
       es out)
  = contents out
    ++ flat_map header_entry (filter (fun e => negb (fst e =? PSEUDO_EOF)) es).
Proof.
  induction es as [|[k v] es IH]; intros out; cbn [fold_left filter fst snd].
  - cbn [flat_map]. rewrite app_nil_r. reflexivity.
  - destruct (k =? PSEUDO_EOF); cbn [negb]; rewrite IH; [reflexivity|].
    cbn [flat_map]. unfold header_entry at 2. cbn [fst snd].
    rewrite contents_put_char, contents_put_int, contents_put_char.
    rewrite <- ?app_assoc. cbn [app]. rewrite <- ?app_assoc. reflexivity.
Qed.

Lemma fold_keys_entries {A : Type} (F : A -> ext_char -> Z -> A) (m : Map.t Z) :
  forall (ks : list Z) (a : A),
  fold_left (fun a k => F a k (Map.at_ 0 m k)) ks a
  = fold_left (fun a e => F a (fst e) (snd e))
      (map (fun k => (k, Map.at_ 0 m k)) ks) a.
Proof.
  induction ks as [|k ks IH]; intros a; cbn [fold_left map fst snd]; auto.
Qed.

Lemma writeFileHeader_contents outfile m :
  ordered m = true ->
  Map.containsKey m PSEUDO_EOF = true ->
  in_int (Map.size m) ->
  fst (writeFileHeader outfile m) = Ok tt /\
  contents (snd (writeFileHeader outfile m)) = contents outfile ++ header_layout m /\
  curByte (snd (writeFileHeader outfile m)) = [].
Proof.
  intros Hm Hkey Hsize.
  unfold writeFileHeader. rewrite Hkey. cbn [negb fst snd].
  split; [reflexivity|].
  rewrite (fold_keys_entries
    (fun out ch f =>
       if ch =? PSEUDO_EOF then out
       else put_char (put_int (put_char out (char_of_ext ch)) f) " ")).
  rewrite (entries_at 0 m Hm).
  split.
  - rewrite header_rounds_contents, contents_put_char, contents_put_int.
    unfold header_layout. rewrite <- !app_assoc.
    unfold Map.containsKey in Hkey.
    destruct (Map.get m PSEUDO_EOF) as [v|] eqn:Hget; [|discriminate].
    rewrite (filter_other_keys m PSEUDO_EOF v Hm Hget).
    rewrite int_wrap_id; [reflexivity|].
    unfold in_int, INT_MIN, INT_MAX, Map.size in *. lia.
  - clear.
    assert (Ho : curByte (put_char (put_int outfile (int_wrap (Map.size m - 1))) " ") = [])
      by reflexivity.
    revert Ho.
    generalize (put_char (put_int outfile (int_wrap (Map.size m - 1))) " ").
    induction m as [|[k v] r IH]; intros o Ho; cbn [fold_left fst snd]; [exact Ho|].
    apply IH. destruct (k =? PSEUDO_EOF); [exact Ho | reflexivity].
Qed.

(** ** The header reader *)

Lemma ext_of_char_range c : 0 <= ext_of_char c <= 255.
Proof.
  unfold ext_of_char. pose proof (N_ascii_bounded c). lia.
Qed.

Lemma ext_of_char_of_ext k : 0 <= k <= 255 -> ext_of_char (char_of_ext k) = k.
Proof.
  intros Hk. unfold ext_of_char, char_of_ext.
  rewrite Z.mod_small by lia.
  rewrite N_ascii_embedding by lia. lia.
Qed.

Lemma char_of_ext_of_char c : char_of_ext (ext_of_char c) = c.
Proof.
  pose proof (ext_of_char_range c) as Hc.
  unfold char_of_ext. rewrite Z.mod_small by lia.
  unfold ext_of_char. rewrite N2Z.id. apply ascii_N_embedding.
Qed.

Lemma extract_int_text w z rest cb :
  in_int z -> not_a_digit_next rest ->
  extract_int {| whole := w; unread := integerToString z ++ rest; curBits := cb |}
  = Ok (z, {| whole := w; unread := rest; curBits := [] |}).
Proof.
  intros Hz Hrest. unfold extract_int. cbn [unread whole].
  rewrite read_int_integerToString by assumption. reflexivity.
Qed.

Lemma readFileHeader_loop_entries w (es : list (ext_char * Z)) :
  forall body acc,
  Forall entry_fits es ->
  readFileHeader_loop (length es)
    {| whole := w; unread := flat_map header_entry es ++ body; curBits := [] |} acc
  = Ok (fold_left (fun a e => Map.put a (fst e) (snd e)) es acc,
        {| whole := w; unread := body; curBits := [] |}).
Proof.
  induction es as [|[k v] es IH]; intros body acc Hes; [reflexivity|].
  inversion Hes as [|e es' [Hk Hv] Hes']; subst. cbn [fst snd] in Hk, Hv.
  cbn [length flat_map readFileHeader_loop]. unfold header_entry at 1.
  cbn [fst snd app]. unfold get at 1. cbn [unread whole].
  rewrite <- !app_assoc. cbn [app].
  rewrite extract_int_text; [|assumption|reflexivity].
  cbn [bind]. unfold get at 1. cbn [unread whole].
  rewrite ext_of_char_of_ext by assumption.
  rewrite IH by assumption. reflexivity.
Qed.

Lemma ordered_app_lt {V : Type} (acc : Map.t V) k v es :
  ordered (acc ++ (k, v) :: es) = true -> forall e, In e acc -> fst e < k.
Proof.
  induction acc as [|[k0 v0] acc IH]; cbn [app]; intros H e He; [contradiction|].
  apply ordered_cons in H. destruct H as [Hlow Hr].
  destruct He as [<-|He].
  - apply (Hlow (k, v)). apply in_or_app. right. left. reflexivity.
  - exact (IH Hr e He).
Qed.

(** Putting the entries of an ordered map one after the other rebuilds it. *)
Lemma fold_put_ordered {V : Type} (es : Map.t V) : forall acc,
  ordered (acc ++ es) = true ->
  fold_left (fun a e => Map.put a (fst e) (snd e)) es acc = acc ++ es.
Proof.
  induction es as [|[k v] es IH]; intros acc H; cbn [fold_left fst snd].
  - rewrite app_nil_r. reflexivity.
  - rewrite (put_last acc k v (ordered_app_lt acc k v es H)).
    rewrite IH; rewrite <- app_assoc; [reflexivity | exact H].
Qed.

Lemma ordered_app_l {V : Type} (a b : Map.t V) :
  ordered (a ++ b) = true -> ordered a = true.
Proof.
  induction a as [|[k v] a IH]; cbn [app]; intros H; [reflexivity|].
  apply ordered_cons in H. destruct H as [Hlow Hr].
  apply ordered_cons. split; [|auto].
  intros e He. apply Hlow. apply in_or_app. left. exact He.
Qed.

(** In a map whose keys do not exceed the sentinel, the sentinel's entry is
    the last one. *)
Lemma split_sentinel (m : Map.t Z) v :
  ordered m = true ->
  (forall e, In e m -> fst e <= PSEUDO_EOF) ->
  Map.get m PSEUDO_EOF = Some v ->
  m = filter (fun e => negb (fst e =? PSEUDO_EOF)) m ++ [(PSEUDO_EOF, v)].
Proof.
  induction m as [|[k f] r IH]; intros Hm Hle Hget; [discriminate|].
  apply ordered_cons in Hm. destruct Hm as [Hlow Hr].
  cbn [Map.get] in Hget. cbn [filter fst].
  destruct (PSEUDO_EOF =? k) eqn:Heq.
  - apply Z.eqb_eq in Heq. subst k. injection Hget as ->.
    rewrite Z.eqb_refl. cbn [negb].
    destruct r as [|e r]; [reflexivity|].
    pose proof (Hlow e (or_introl eq_refl)).
    pose proof (Hle e (or_intror (or_introl eq_refl))). lia.
  - rewrite Z.eqb_sym, Heq. cbn [negb app]. f_equal.
    apply IH; [assumption | | assumption].
    intros e He. apply Hle. right. exact He.
Qed.

Lemma ordered_length_bound {V : Type} (m : Map.t V) hi : forall lo,
  ordered m = true ->
  (forall e, In e m -> lo <= fst e <= hi) ->
  Z.of_nat (length m) <= Z.max 0 (hi - lo + 1).
Proof.
  induction m as [|[k v] r IH]; intros lo Hm Hb; cbn [length]; [lia|].
  apply ordered_cons in Hm. destruct Hm as [Hlow Hr].
  pose proof (Hb (k, v) (or_introl eq_refl)) as Hk. cbn [fst] in Hk.
  assert (Hr' : Z.of_nat (length r) <= Z.max 0 (hi - (k + 1) + 1)).
  { apply IH; [assumption|]. intros e He.
    specialize (Hlow e He). specialize (Hb e (or_intror He)). lia. }
  lia.
Qed.

Lemma table_fits_size m : ordered m = true -> table_fits m -> 0 <= Map.size m <= 257.
Proof.
  intros Hm Hfit. unfold Map.size. split; [lia|].
  pose proof (ordered_length_bound m 256 0 Hm) as H.
  assert (Hb : forall e, In e m -> 0 <= fst e <= 256).
  { intros e He. destruct (Hfit e He) as [->|[Hk _]]; unfold PSEUDO_EOF; lia. }
  specialize (H Hb). lia.
Qed.

(** Reading the header written for [m], whatever follows it in the file,
    gives [m] back and leaves the stream right behind the header. *)
Lemma header_round_trip w m body :
  ordered m = true ->
  table_fits m ->
  Map.get m PSEUDO_EOF = Some 1 ->
  readFileHeader {| whole := w; unread := header_layout m ++ body; curBits := [] |}
  = Ok (m, {| whole := w; unread := body; curBits := [] |}).
Proof.
  intros Hm Hfit Hget.
  pose proof (table_fits_size m Hm Hfit) as Hsize.
  pose proof (filter_other_keys m PSEUDO_EOF 1 Hm Hget) as Hlen.
  assert (Hle : forall e, In e m -> fst e <= PSEUDO_EOF).
  { intros e He. destruct (Hfit e He) as [->|[Hk _]]; unfold PSEUDO_EOF; lia. }
  pose proof (split_sentinel m 1 Hm Hle Hget) as Hsplit.
  set (es := filter (fun e => negb (fst e =? PSEUDO_EOF)) m) in *.
  assert (Hes : Forall entry_fits es).
  { apply Forall_forall. intros e He. apply filter_In in He.
    destruct He as [He Hne]. destruct (Hfit e He) as [Heq|Hok]; [|exact Hok].
    rewrite Heq, Z.eqb_refl in Hne. discriminate. }
  unfold readFileHeader.
  unfold header_layout. fold es. rewrite <- !app_assoc. cbn [app].
  rewrite extract_int_text; [|unfold in_int, INT_MIN, INT_MAX; lia|reflexivity].
  cbn [bind]. unfold get at 1. cbn [unread whole].
  rewrite Nat2Z.id.
  rewrite readFileHeader_loop_entries by assumption.
  cbn [bind]. unfold Map.empty.
  assert (Hoes : ordered es = true).
  { rewrite Hsplit in Hm. exact (ordered_app_l _ _ Hm). }
  rewrite (fold_put_ordered es []) by exact Hoes.
  cbn [app]. rewrite put_last.
  - rewrite <- Hsplit. reflexivity.
  - intros e He. apply (ordered_app_lt es PSEUDO_EOF 1 []); [|exact He].
    rewrite <- Hsplit. exact Hm.
Qed.

(** ** Bits in bytes *)

Lemma bits_of_char_length c : length (bits_of_char c) = 8%nat.
Proof. destruct c. reflexivity. Qed.

(** A byte holds up to eight bits, the missing ones being zero. *)
Lemma bits_of_char_of_bits l :
  (length l <= 8)%nat ->
  bits_of_char (char_of_bits l) = l ++ repeat false (8 - length l).
Proof.
  intros H.
  do 8 (destruct l as [|? l]; [reflexivity|]).
  destruct l; [reflexivity | cbn [length] in H; lia].
Qed.

Lemma writeBit_spec o b :
  (length (curByte o) < 8)%nat ->
  (length (curByte (writeBit o b)) < 8)%nat /\
  flat_map bits_of_char (written (writeBit o b)) ++ curByte (writeBit o b)
  = flat_map bits_of_char (written o) ++ curByte o ++ [b] /\
  exists bytes, written (writeBit o b) = written o ++ bytes.
Proof.
  intros Hlen. unfold writeBit.
  destruct (length (curByte o ++ [b]) =? 8)%nat eqn:Hfull; cbn [written curByte].
  - apply Nat.eqb_eq in Hfull. split; [cbn; lia|]. split; [|eauto].
    rewrite flat_map_app. cbn [flat_map].
    rewrite bits_of_char_of_bits by lia.
    rewrite Hfull. cbn [Nat.sub repeat]. rewrite !app_nil_r. reflexivity.
  - apply Nat.eqb_neq in Hfull. rewrite length_app in *. cbn [length] in *.
    split; [lia|]. split; [reflexivity|]. exists []. rewrite app_nil_r. reflexivity.
Qed.

(** The bits a file holds after some bits were written behind text: the
    bits written, then zeros up to the end of the last byte. *)
Lemma write_bits_contents (bits : list bool) : forall o,
  (length (curByte o) < 8)%nat ->
  exists bytes k,
    contents (fold_left writeBit bits o) = written o ++ bytes /\
    flat_map bits_of_char bytes = curByte o ++ bits ++ repeat false k.
Proof.
  induction bits as [|b bits IH]; intros o Hlen; cbn [fold_left].
  - unfold contents. destruct (curByte o) as [|b0 cb] eqn:Hcb.
    + exists [], 0%nat. rewrite app_nil_r. split; reflexivity.
    + exists [char_of_bits (b0 :: cb)], (8 - length (b0 :: cb))%nat.
      split; [reflexivity|]. cbn [flat_map]. rewrite app_nil_r.
      apply bits_of_char_of_bits. lia.
  - destruct (writeBit_spec o b Hlen) as (Hlen' & Hbits & bytes0 & Hw).
    destruct (IH (writeBit o b) Hlen') as (bytes & k & Hc & Hf).
    exists (bytes0 ++ bytes), k. rewrite Hc, Hw, <- app_assoc. split; [reflexivity|].
    rewrite Hw, flat_map_app in Hbits.
    rewrite flat_map_app, Hf, app_assoc.
    rewrite <- app_assoc in Hbits. apply app_inv_head in Hbits.
    rewrite Hbits, <- !app_assoc. reflexivity.
Qed.

Lemma writeBits_bits code o :
  writeBits o code = fold_left writeBit (bits_of_text code) o.
Proof.
  unfold writeBits, bits_of_text. revert o.
  induction code as [|c code IH]; intros o; cbn [fold_left map]; auto.
Qed.

Lemma fold_writeBit_app a b o :
  fold_left writeBit (a ++ b) o = fold_left writeBit b (fold_left writeBit a o).
Proof. apply fold_left_app. Qed.

(** ** Reading bits *)

Lemma readBit_pending s :
  match pending s with
  | [] => fst (readBit s) = EOF /\ pending (snd (readBit s)) = []
  | b :: rest => fst (readBit s) = Z.b2z b /\ pending (snd (readBit s)) = rest
  end.
Proof.
  unfold pending, readBit.
  destruct (curBits s) as [|b bs]; cbn [app].
  - destruct (unread s) as [|c r]; cbn [flat_map app].
    + split; reflexivity.
    + destruct c as [b0 b1 b2 b3 b4 b5 b6 b7]. cbn. split; reflexivity.
  - cbn. split; reflexivity.
Qed.

(** ** Building the tree *)

Lemma leaves_node c zero one w :
  zero <> NULL -> leaves (Node c zero one w) = leaves zero ++ leaves one.
Proof.
  intros Hz. destruct zero as [|cz zz zo zw]; [contradiction Hz; reflexivity|].
  unfold leaves. cbn [leaf_codes]. rewrite map_app, !map_map. reflexivity.
Qed.

Section QueueFacts.
Variable P : NodePtr -> Prop.

Lemma enqueue_length (q : PriorityQueue.t NodePtr) x p :
  length (PriorityQueue.enqueue q x p) = S (length q).
Proof.
  induction q as [|[y p'] r IH]; cbn [PriorityQueue.enqueue]; [reflexivity|].
  destruct (p <? p'); cbn [length]; [reflexivity | rewrite IH; reflexivity].
Qed.

Lemma enqueue_Forall (q : PriorityQueue.t NodePtr) x p :
  P x -> Forall (fun e => P (fst e)) q ->
  Forall (fun e => P (fst e)) (PriorityQueue.enqueue q x p).
Proof.
  intros Hx. induction 1 as [|[y p'] r Hy Hr IH]; cbn [PriorityQueue.enqueue].
  - constructor; [exact Hx | constructor].
  - destruct (p <? p').
    + constructor; [exact Hx | constructor; assumption].
    + constructor; assumption.
Qed.

Lemma enqueue_leaves (q : PriorityQueue.t NodePtr) x p :
  Permutation (queue_leaves (PriorityQueue.enqueue q x p)) (leaves x ++ queue_leaves q).
Proof.
  induction q as [|[y p'] r IH]; cbn [PriorityQueue.enqueue].
  - apply Permutation_refl.
  - destruct (p <? p'); [apply Permutation_refl|].
    unfold queue_leaves in *. cbn [flat_map fst].
    eapply Permutation_trans; [apply Permutation_app_head, IH|].
    apply Permutation_app_swap_app.
Qed.

Lemma enqueueNodes_spec (m : Map.t Z) : forall (ks : list Z) q,
  let q' :=
    fold_left
      (fun q currChar =>
         let weight := Map.at_ 0 m currChar in
         PriorityQueue.enqueue q (Node currChar NULL NULL weight) weight)
      ks q in
  length q' = (length ks + length q)%nat /\
  Permutation (queue_leaves q') (ks ++ queue_leaves q) /\
  ((forall k w, In k ks -> P (Node k NULL NULL w)) ->
   Forall (fun e => P (fst e)) q -> Forall (fun e => P (fst e)) q').
Proof.
  induction ks as [|k ks IH]; intros q; cbn zeta; cbn [fold_left].
  - split; [reflexivity|]. split; [apply Permutation_refl | auto].
  - specialize (IH (PriorityQueue.enqueue q (Node k NULL NULL (Map.at_ 0 m k))
                      (Map.at_ 0 m k))).
    cbn zeta in IH. destruct IH as (Hlen & Hperm & HP).
    split; [|split].
    + rewrite Hlen, enqueue_length. cbn [length]. lia.
    + eapply Permutation_trans; [exact Hperm|].
      eapply Permutation_trans; [apply Permutation_app_head, enqueue_leaves|].
      change (leaves (Node k NULL NULL (Map.at_ 0 m k))) with [k].
      cbn [app]. apply Permutation_sym, Permutation_middle.
    + intros Hks Hq. apply HP.
      * intros k' w Hk'. apply Hks. right. exact Hk'.
      * apply enqueue_Forall; [|exact Hq]. apply Hks. left. reflexivity.
Qed.

Hypothesis P_not_null : forall x, P x -> x <> NULL.
Hypothesis P_merge :
  forall zero one w, P zero -> P one -> P (Node NOT_A_CHAR zero one w).

(** [mergeNodes] on a queue that is not empty returns a tree; its leaves
    are those of the trees in the queue. *)
Lemma mergeNodes_loop_spec : forall fuel (q : PriorityQueue.t NodePtr),
  (length q <= fuel)%nat -> q <> [] ->
  Forall (fun e => P (fst e)) q ->
  exists t, mergeNodes_loop fuel q = Ok t /\ P t /\
            Permutation (leaves t) (queue_leaves q).
Proof.
  induction fuel as [|fuel IH]; intros q Hlen Hne Hq.
  - destruct q; [contradiction Hne; reflexivity | cbn [length] in Hlen; lia].
  - destruct q as [|[x p] [|[y p'] r]]; [contradiction Hne; reflexivity | |].
    + exists x. inversion Hq; subst. repeat split; [assumption|].
      unfold queue_leaves. cbn [flat_map fst]. rewrite app_nil_r.
      apply Permutation_refl.
    + inversion Hq as [|? ? Hx Hq1]; subst.
      inversion Hq1 as [|? ? Hy Hr]; subst. cbn [fst] in Hx, Hy.
      cbn [mergeNodes_loop].
      destruct (PriorityQueue.size ((x, p) :: (y, p') :: r) =? 1) eqn:Hs.
      { apply Z.eqb_eq in Hs. unfold PriorityQueue.size in Hs.
        cbn [length] in Hs. lia. }
      cbn [PriorityQueue.dequeue bind].
      pose proof (P_not_null x Hx) as Hxn. pose proof (P_not_null y Hy) as Hyn.
      destruct x as [|cx zx ox wx]; [contradiction Hxn; reflexivity|].
      destruct y as [|cy zy oy wy]; [contradiction Hyn; reflexivity|].
      cbn [weight_of deref bind].
      set (n := Node NOT_A_CHAR (Node cx zx ox wx) (Node cy zy oy wy)
                  (int_wrap (wx + wy))).
      destruct (IH (PriorityQueue.enqueue r n (int_wrap (wx + wy)))) as (t & Ht & HPt & Hperm).
      * rewrite enqueue_length. cbn [length] in Hlen. lia.
      * intros E. pose proof (enqueue_length r n (int_wrap (wx + wy))) as L.
        rewrite E in L. discriminate.
      * apply enqueue_Forall; [|exact Hr]. apply P_merge; assumption.
      * exists t. split; [exact Ht|]. split; [exact HPt|].
        eapply Permutation_trans; [exact Hperm|].
        eapply Permutation_trans; [apply enqueue_leaves|].
        unfold n. rewrite leaves_node by discriminate.
        unfold queue_leaves. cbn [flat_map fst]. rewrite <- app_assoc.
        apply Permutation_refl.
Qed.
End QueueFacts.

Lemma buildEncodingTree_returns (m : Map.t Z) :
  m <> [] ->
  exists t, buildEncodingTree m = Ok t /\ t <> NULL /\
            Permutation (leaves t) (Map.keys m).
Proof.
  intros Hne. unfold buildEncodingTree, enqueueNodes, mergeNodes.
  destruct (enqueueNodes_spec (fun x => x <> NULL) m (Map.keys m) PriorityQueue.empty)
    as (Hlen & Hperm & HP).
  cbn zeta in *.
  set (q := fold_left _ (Map.keys m) PriorityQueue.empty) in *.
  destruct (mergeNodes_loop_spec (fun x => x <> NULL)) with (fuel := S (length q)) (q := q)
    as (t & Ht & Hnn & Hl).
  - auto.
  - discriminate.
  - lia.
  - intros E. rewrite E in Hlen. unfold Map.keys in Hlen. rewrite length_map in Hlen.
    destruct m; [contradiction Hne; reflexivity | discriminate].
  - apply HP; [discriminate | constructor].
  - exists t. repeat split; [exact Ht | exact Hnn |].
    eapply Permutation_trans; [exact Hl|].
    eapply Permutation_trans; [exact Hperm|].
    unfold PriorityQueue.empty, queue_leaves. cbn [flat_map]. rewrite app_nil_r.
    apply Permutation_refl.
Qed.

Lemma buildEncodingTree_well_formed (m : Map.t Z) :
  m <> [] -> ~ In NOT_A_CHAR (Map.keys m) ->
  exists t, buildEncodingTree m = Ok t /\ well_formed t = true /\
            Permutation (leaves t) (Map.keys m).
Proof.
  intros Hne Hkeys. unfold buildEncodingTree, enqueueNodes, mergeNodes.
  destruct (enqueueNodes_spec (fun x => well_formed x = true) m (Map.keys m)
              PriorityQueue.empty) as (Hlen & Hperm & HP).
  cbn zeta in *.
  set (q := fold_left _ (Map.keys m) PriorityQueue.empty) in *.
  destruct (mergeNodes_loop_spec (fun x => well_formed x = true))
    with (fuel := S (length q)) (q := q) as (t & Ht & Hwf & Hl).
  - intros x Hx E. subst x. discriminate.
  - intros zero one w Hz Ho. cbn [well_formed]. rewrite Z.eqb_refl, Hz, Ho. reflexivity.
  - lia.
  - intros E. rewrite E in Hlen. unfold Map.keys in Hlen. rewrite length_map in Hlen.
    destruct m; [contradiction Hne; reflexivity | discriminate].
  - apply HP; [|constructor]. intros k w Hk. cbn [well_formed].
    destruct (k =? NOT_A_CHAR) eqn:E; [|reflexivity].
    apply Z.eqb_eq in E. subst k. contradiction.
  - exists t. repeat split; [exact Ht | exact Hwf |].
    eapply Permutation_trans; [exact Hl|].
    eapply Permutation_trans; [exact Hperm|].
    unfold PriorityQueue.empty, queue_leaves. cbn [flat_map]. rewrite app_nil_r.
    apply Permutation_refl.
Qed.

(** ** Codes of the leaves *)

Lemma prefix_free_branches (a b : list (list bool)) :
  prefix_free a -> prefix_free b ->
  prefix_free (map (cons false) a ++ map (cons true) b).
Proof.
  intros Ha Hb i j p q Hij Hi Hj [r Hr].
  assert (Hsplit : forall (n : nat) s,
    nth_error (map (cons false) a ++ map (cons true) b) n = Some s ->
    (exists s', s = false :: s' /\ nth_error a n = Some s' /\ (n < length a)%nat) \/
    (exists s', s = true :: s' /\ nth_error b (n - length a) = Some s' /\
                (length a <= n)%nat)).
  { intros n s Hn. destruct (Nat.lt_ge_cases n (length a)) as [Hlt|Hge].
    - rewrite nth_error_app1 in Hn by (rewrite length_map; exact Hlt).
      rewrite nth_error_map in Hn.
      destruct (nth_error a n) as [s'|]; [|discriminate].
      injection Hn as <-. left. eauto.
    - rewrite nth_error_app2 in Hn by (rewrite length_map; exact Hge).
      rewrite length_map, nth_error_map in Hn.
      destruct (nth_error b (n - length a)) as [s'|]; [|discriminate].
      injection Hn as <-. right. eauto. }
  destruct (Hsplit i p Hi) as [(p' & -> & Hp & Hil)|(p' & -> & Hp & Hil)];
  destruct (Hsplit j q Hj) as [(q' & -> & Hq & Hjl)|(q' & -> & Hq & Hjl)];
    cbn [app] in Hr; try discriminate; injection Hr as Hr.
  - apply (Ha i j p' q' Hij Hp Hq). exists r. exact Hr.
  - apply (Hb (i - length a)%nat (j - length a)%nat p' q'); [lia | exact Hp | exact Hq |].
    exists r. exact Hr.
Qed.

(** The root-to-leaf paths of any tree form a prefix code. *)
Lemma codes_prefix_free t : prefix_free (codes t).
Proof.
  induction t as [|c zero IHz one IHo w].
  - intros i j p q _ Hi. destruct i; discriminate.
  - assert (Hsingle : forall l : list (list bool), (length l <= 1)%nat -> prefix_free l).
    { intros l Hl i j p q Hij Hi Hj.
      assert (Hi' : nth_error l i <> None) by congruence.
      assert (Hj' : nth_error l j <> None) by congruence.
      apply nth_error_Some in Hi', Hj'. lia. }
    assert (Hboth : codes (Node c zero one w) = [[]] \/
                    codes (Node c zero one w)
                    = map (cons false) (codes zero) ++ map (cons true) (codes one)).
    { unfold codes.
      destruct zero as [|cz zz zo zw]; [destruct one as [|co oz oo ow]|];
        [left; reflexivity | right | right];
        cbn [leaf_codes]; rewrite map_app, !map_map; reflexivity. }
    destruct Hboth as [-> | ->].
    + apply Hsingle. cbn. lia.
    + apply prefix_free_branches; assumption.
Qed.

(** ** Well-formed trees *)

Lemma well_formed_ind (Q : NodePtr -> Prop) :
  (forall c w, c <> NOT_A_CHAR -> Q (Node c NULL NULL w)) ->
  (forall zero one w,
     well_formed zero = true -> well_formed one = true ->
     Q zero -> Q one -> Q (Node NOT_A_CHAR zero one w)) ->
  forall t, well_formed t = true -> Q t.
Proof.
  intros Hleaf Hnode.
  induction t as [|c zero IHz one IHo w]; cbn [well_formed]; [discriminate|].
  destruct (c =? NOT_A_CHAR) eqn:Hc.
  - apply Z.eqb_eq in Hc. subst c. intros H. apply andb_true_iff in H.
    destruct H as [Hz Ho]. auto.
  - apply Z.eqb_neq in Hc.
    destruct zero; [destruct one; [|discriminate] | discriminate].
    intros _. auto.
Qed.

Lemma well_formed_not_null t : well_formed t = true -> t <> NULL.
Proof. intros H E. subst t. discriminate. Qed.

Lemma leaf_codes_internal c zero one w :
  well_formed zero = true ->
  leaf_codes (Node c zero one w)
  = map (fun e => (fst e, false :: snd e)) (leaf_codes zero)
    ++ map (fun e => (fst e, true :: snd e)) (leaf_codes one).
Proof.
  intros Hz. destruct zero; [discriminate | reflexivity].
Qed.

Lemma follow_app a : forall t b,
  follow t (a ++ b) = (n <- follow t a ;; follow n b).
Proof.
  induction a as [|c a IH]; intros t b; cbn [app follow bind]; [reflexivity|].
  destruct (if Ascii.eqb c "0" then zero_of t else one_of t); cbn [bind]; auto.
Qed.

Lemma follow_branch c zero one w (b : bool) s :
  follow (Node c zero one w) ((if b then "1"%char else "0"%char) :: s)
  = follow (if b then one else zero) s.
Proof. destruct b; reflexivity. Qed.

(** The text of a leaf's code leads from the root to that leaf. *)
Lemma follow_leaf_code x : forall t, well_formed t = true ->
  forall p, In (x, p) (leaf_codes t) ->
  exists w, follow t (text_of_bits p) = Ok (Node x NULL NULL w).
Proof.
  apply (well_formed_ind
    (fun t => forall p, In (x, p) (leaf_codes t) ->
              exists w, follow t (text_of_bits p) = Ok (Node x NULL NULL w))).
  - intros c w Hc p [E|[]]. injection E as -> <-. exists w. reflexivity.
  - intros zero one w Hz Ho IHz IHo p Hin.
    rewrite leaf_codes_internal in Hin by exact Hz.
    apply in_app_or in Hin. destruct Hin as [Hin|Hin];
      apply in_map_iff in Hin; destruct Hin as ([x' p'] & E & Hin);
      cbn [fst snd] in E; injection E as -> <-; cbn [text_of_bits map].
    + rewrite (follow_branch _ _ _ _ false). auto.
    + rewrite (follow_branch _ _ _ _ true). auto.
Qed.

Lemma leaves_internal c zero one w :
  well_formed zero = true ->
  leaves (Node c zero one w) = leaves zero ++ leaves one.
Proof. intros Hz. apply leaves_node, well_formed_not_null, Hz. Qed.

(** A symbol that is at no leaf of a tree is not at its root either. *)
Lemma root_character_differs x t :
  well_formed t = true -> x <> NOT_A_CHAR -> ~ In x (leaves t) ->
  exists c, character_of t = Ok c /\ (c =? x) = false.
Proof.
  intros Hwf Hx. revert t Hwf.
  apply (well_formed_ind
    (fun t => ~ In x (leaves t) -> exists c, character_of t = Ok c /\ (c =? x) = false)).
  - intros c w Hc Hnin. exists c. split; [reflexivity|].
    apply Z.eqb_neq. intros E. apply Hnin. left. exact E.
  - intros zero one w _ _ _ _ _. exists NOT_A_CHAR. split; [reflexivity|].
    apply Z.eqb_neq. congruence.
Qed.

Lemma isCorrectCode_branch c zero one w (b : bool) s x :
  isCorrectCode (Node c zero one w) ((if b then "1"%char else "0"%char) :: s) x
  = isCorrectCode (if b then one else zero) s x.
Proof. unfold isCorrectCode. rewrite follow_branch. reflexivity. Qed.

Lemma isCorrectCode_leaf_code x t p :
  well_formed t = true -> In (x, p) (leaf_codes t) ->
  isCorrectCode t (text_of_bits p) x = Ok true.
Proof.
  intros Hwf Hin. unfold isCorrectCode.
  destruct (follow_leaf_code x t Hwf p Hin) as [w ->].
  cbn [bind character_of deref]. rewrite Z.eqb_refl. reflexivity.
Qed.

Lemma isCorrectCode_absent x t :
  well_formed t = true -> x <> NOT_A_CHAR -> ~ In x (leaves t) ->
  isCorrectCode t [] x = Ok false.
Proof.
  intros Hwf Hx Hnin. unfold isCorrectCode. cbn [follow bind].
  destruct (root_character_differs x t Hwf Hx Hnin) as (c & Hc & Hne).
  rewrite Hc. cbn [bind]. rewrite Hne. reflexivity.
Qed.

(** What [searchCharacterInTree] returns: the code of a leaf that carries
    the symbol, or the empty text when no leaf carries it. *)
Lemma searchCharacterInTree_spec x :
  x <> NOT_A_CHAR ->
  forall t, well_formed t = true ->
  exists p, searchCharacterInTree t x = Ok (text_of_bits p) /\
            (In (x, p) (leaf_codes t) \/ (p = [] /\ ~ In x (leaves t))).
Proof.
  intros Hx.
  apply (well_formed_ind
    (fun t => exists p, searchCharacterInTree t x = Ok (text_of_bits p) /\
                        (In (x, p) (leaf_codes t) \/ (p = [] /\ ~ In x (leaves t))))).
  - intros c w Hc. exists []. cbn [searchCharacterInTree].
    apply Z.eqb_neq in Hc. rewrite Hc. cbn [negb]. split; [reflexivity|].
    destruct (Z.eq_dec c x) as [->|Hne].
    + left. left. reflexivity.
    + right. split; [reflexivity|]. intros [E|[]]. contradiction.
  - intros zero one w Hz Ho (p0 & Hs0 & H0) (p1 & Hs1 & H1).
    cbn [searchCharacterInTree]. rewrite Z.eqb_refl. cbn [negb].
    rewrite Hs0. cbn [bind].
    change (lit "0" ++ text_of_bits p0) with (text_of_bits (false :: p0)).
    change (text_of_bits (false :: p0)) with ("0"%char :: text_of_bits p0) at 1.
    rewrite (isCorrectCode_branch _ _ _ _ false).
    rewrite leaf_codes_internal, leaves_internal by exact Hz.
    destruct H0 as [Hin0 | [-> Hnin0]].
    { rewrite (isCorrectCode_leaf_code x zero p0 Hz Hin0). cbn [bind].
      exists (false :: p0). split; [reflexivity|]. left.
      apply in_or_app. left. apply in_map_iff. exists (x, p0). auto. }
    cbn [text_of_bits map].
    rewrite (isCorrectCode_absent x zero Hz Hx Hnin0). cbn [bind].
    rewrite Hs1. cbn [bind].
    change (lit "1" ++ text_of_bits p1) with (text_of_bits (true :: p1)).
    change (text_of_bits (true :: p1)) with ("1"%char :: text_of_bits p1) at 1.
    rewrite (isCorrectCode_branch _ _ _ _ true).
    destruct H1 as [Hin1 | [-> Hnin1]].
    { rewrite (isCorrectCode_leaf_code x one p1 Ho Hin1). cbn [bind].
      exists (true :: p1). split; [reflexivity|]. left.
      apply in_or_app. right. apply in_map_iff. exists (x, p1). auto. }
    cbn [text_of_bits map].
    rewrite (isCorrectCode_absent x one Ho Hx Hnin1). cbn [bind].
    exists []. split; [reflexivity|]. right. split; [reflexivity|].
    intros Hin. apply in_app_or in Hin. tauto.
Qed.

Lemma well_formed_cases t :
  well_formed t = true ->
  (exists c w, t = Node c NULL NULL w /\ c <> NOT_A_CHAR) \/
  (exists zero one w, t = Node NOT_A_CHAR zero one w /\
                      well_formed zero = true /\ well_formed one = true).
Proof.
  revert t. apply well_formed_ind.
  - intros c w Hc. left. eauto.
  - intros zero one w Hz Ho _ _. right. exists zero, one, w. auto.
Qed.

(** ** The decoder *)

Lemma text_of_bits_snoc q (b : bool) :
  text_of_bits q ++ integerToString (Z.b2z b) = text_of_bits (q ++ [b]).
Proof.
  unfold text_of_bits. rewrite map_app. destruct b; reflexivity.
Qed.

Lemma searchCodeInTree_snoc t q (b : bool) c zero one w :
  follow t (text_of_bits q) = Ok (Node c zero one w) ->
  searchCodeInTree t (text_of_bits (q ++ [b]))
  = character_of (if b then one else zero) /\
  follow t (text_of_bits (q ++ [b])) = Ok (if b then one else zero).
Proof.
  intros Hq. unfold searchCodeInTree, text_of_bits. rewrite map_app.
  rewrite follow_app. fold (text_of_bits q). rewrite Hq. cbn [bind map].
  rewrite follow_branch. cbn [follow bind]. split; reflexivity.
Qed.

Lemma reference_decode_at_leaf root c zero one w (b : bool) x wx rest out :
  (if b then one else zero) = Node x NULL NULL wx ->
  reference_decode root (Node c zero one w) (b :: rest) out
  = if x =? PSEUDO_EOF then Some (out, rest)
    else reference_decode root root rest (out ++ [char_of_ext x]).
Proof. intros H. cbn [reference_decode]. rewrite H. reflexivity. Qed.

Lemma reference_decode_at_internal root c zero one w (b : bool) z o wn rest out :
  (if b then one else zero) = Node NOT_A_CHAR z o wn ->
  well_formed z = true ->
  reference_decode root (Node c zero one w) (b :: rest) out
  = reference_decode root (Node NOT_A_CHAR z o wn) rest out.
Proof.
  intros H Hz. cbn [reference_decode]. rewrite H.
  destruct z; [discriminate | reflexivity].
Qed.

(** [decodeFile_loop] with the text of the bits read so far does what the
    reference decoder does with its cursor at the node that text leads to. *)
Lemma decodeFile_loop_refines t rz ro rw :
  t = Node NOT_A_CHAR rz ro rw ->
  well_formed rz = true -> well_formed ro = true ->
  forall bits fuel infile q file c zero one w out rest,
    (length bits <= fuel)%nat ->
    pending infile = bits ->
    follow t (text_of_bits q) = Ok (Node c zero one w) ->
    well_formed zero = true -> well_formed one = true ->
    reference_decode t (Node c zero one w) bits file = Some (out, rest) ->
    exists infile',
      decodeFile_loop fuel infile t (text_of_bits q) file = (Ok tt, infile', out) /\
      pending infile' = rest.
Proof.
  intros Ht Hrz Hro.
  induction bits as [|b bits IH];
    intros fuel infile q file c zero one w out rest Hfuel Hpend Hq Hz Ho Href;
    [discriminate|].
  destruct fuel as [|fuel]; [cbn [length] in Hfuel; lia|].
  cbn [length] in Hfuel.
  pose proof (readBit_pending infile) as Hrb. rewrite Hpend in Hrb.
  cbn [decodeFile_loop].
  destruct (readBit infile) as [bit infile1]. cbn [fst snd] in Hrb.
  destruct Hrb as [-> Hpend1].
  rewrite text_of_bits_snoc.
  destruct (searchCodeInTree_snoc t q b c zero one w Hq) as [Hsearch Hfollow].
  rewrite Hsearch.
  assert (Hchild : well_formed (if b then one else zero) = true)
    by (destruct b; assumption).
  destruct (well_formed_cases _ Hchild) as
    [(x & wx & Hleaf & Hx) | (z & o & wn & Hnode & Hzz & Hoo)].
  - rewrite (reference_decode_at_leaf t c zero one w b x wx bits file Hleaf) in Href.
    rewrite Hleaf. cbn [character_of deref].
    destruct (x =? PSEUDO_EOF).
    + injection Href as <- <-. exists infile1. split; [reflexivity | exact Hpend1].
    + apply Z.eqb_neq in Hx. rewrite Hx. cbn [negb].
      change (@nil ascii) with (text_of_bits []).
      apply (IH fuel infile1 [] _ NOT_A_CHAR rz ro rw); try assumption; try lia.
      * rewrite Ht. reflexivity.
      * rewrite <- Ht. exact Href.
  - rewrite (reference_decode_at_internal t c zero one w b z o wn bits file Hnode Hzz)
      in Href.
    rewrite Hnode. cbn [character_of deref].
    change (NOT_A_CHAR =? PSEUDO_EOF) with false.
    rewrite Z.eqb_refl. cbn [negb].
    apply (IH fuel infile1 (q ++ [b]) _ NOT_A_CHAR z o wn); try assumption; try lia.
    rewrite Hfollow, Hnode. reflexivity.
Qed.

Lemma reference_decode_single_leaf c w bits out :
  reference_decode (Node c NULL NULL w) (Node c NULL NULL w) bits out = None.
Proof. destruct bits as [|[] bits]; reflexivity. Qed.

(** ** Encoding, then decoding *)

Lemma bits_of_text_of_bits p : bits_of_text (text_of_bits p) = p.
Proof.
  unfold bits_of_text, text_of_bits. rewrite map_map.
  induction p as [|[] p IH]; cbn [map]; [reflexivity | |]; f_equal; exact IH.
Qed.

(** The reference decoder, walking the code of a leaf from an inner node,
    arrives at that leaf. *)
Lemma reference_decode_code root x rest out : forall t, well_formed t = true ->
  forall p, p <> [] -> In (x, p) (leaf_codes t) ->
  reference_decode root t (p ++ rest) out
  = if x =? PSEUDO_EOF then Some (out, rest)
    else reference_decode root root rest (out ++ [char_of_ext x]).
Proof.
  apply (well_formed_ind
    (fun t => forall p, p <> [] -> In (x, p) (leaf_codes t) ->
       reference_decode root t (p ++ rest) out
       = if x =? PSEUDO_EOF then Some (out, rest)
         else reference_decode root root rest (out ++ [char_of_ext x]))).
  - intros c w _ p Hp [E|[]]. injection E as _ <-. contradiction Hp. reflexivity.
  - intros zero one w Hz Ho IHz IHo p _ Hin.
    rewrite leaf_codes_internal in Hin by exact Hz.
    assert (Hstep : forall (b : bool) p',
      In (x, p') (leaf_codes (if b then one else zero)) ->
      (forall q, q <> [] -> In (x, q) (leaf_codes (if b then one else zero)) ->
         reference_decode root (if b then one else zero) (q ++ rest) out
         = if x =? PSEUDO_EOF then Some (out, rest)
           else reference_decode root root rest (out ++ [char_of_ext x])) ->
      reference_decode root (Node NOT_A_CHAR zero one w) ((b :: p') ++ rest) out
      = if x =? PSEUDO_EOF then Some (out, rest)
        else reference_decode root root rest (out ++ [char_of_ext x])).
    { intros b p' Hin' IHb.
      assert (Hchild : well_formed (if b then one else zero) = true)
        by (destruct b; assumption).
      destruct (well_formed_cases _ Hchild) as
        [(c & wc & Hleaf & Hc) | (z & o & wn & Hnode & Hzz & Hoo)].
      - rewrite Hleaf in Hin'. destruct Hin' as [E|[]]. injection E as -> <-.
        cbn [app]. apply (reference_decode_at_leaf _ _ _ _ _ _ _ wc). exact Hleaf.
      - cbn [app].
        rewrite (reference_decode_at_internal _ _ _ _ _ _ z o wn) by assumption.
        rewrite <- Hnode. apply IHb; [|exact Hin'].
        rewrite Hnode, leaf_codes_internal in Hin' by exact Hzz.
        intros ->. apply in_app_or in Hin'.
        destruct Hin' as [H|H]; apply in_map_iff in H;
          destruct H as (e & E & _); discriminate. }
    apply in_app_or in Hin. destruct Hin as [Hin|Hin];
      apply in_map_iff in Hin; destruct Hin as ([x' p'] & E & Hin);
      cbn [fst snd] in E; injection E as -> <-.
    + apply (Hstep false p' Hin IHz).
    + apply (Hstep true p' Hin IHo).
Qed.

(** The bits [encodeFile] writes for a symbol at a leaf are a code of it. *)
Lemma code_of_leaf t x :
  well_formed t = true -> x <> NOT_A_CHAR -> In x (leaves t) ->
  In (x, code_of t x) (leaf_codes t).
Proof.
  intros Hwf Hx Hin. unfold code_of.
  destruct (searchCharacterInTree_spec x Hx t Hwf) as (p & -> & [Hp | [_ Hnin]]).
  - rewrite bits_of_text_of_bits. exact Hp.
  - contradiction.
Qed.

Lemma leaf_codes_inner_nonempty zero one w x p :
  well_formed zero = true ->
  In (x, p) (leaf_codes (Node NOT_A_CHAR zero one w)) -> p <> [].
Proof.
  intros Hz Hin. rewrite leaf_codes_internal in Hin by exact Hz.
  intros ->. apply in_app_or in Hin.
  destruct Hin as [H|H]; apply in_map_iff in H; destruct H as (e & E & _);
    discriminate.
Qed.

Lemma reference_decode_encoding t zero one w rest :
  t = Node NOT_A_CHAR zero one w ->
  well_formed t = true ->
  In PSEUDO_EOF (leaves t) ->
  forall chars out,
    (forall c, In c chars -> In (ext_of_char c) (leaves t)) ->
    reference_decode t t (encoding t chars ++ rest) out = Some (out ++ chars, rest).
Proof.
  intros Ht Hwf Heof.
  assert (Hz : well_formed zero = true).
  { rewrite Ht in Hwf. cbn [well_formed] in Hwf. rewrite Z.eqb_refl in Hwf.
    apply andb_true_iff in Hwf. tauto. }
  assert (Hcode : forall x, x <> NOT_A_CHAR -> In x (leaves t) ->
            forall rest' out',
            reference_decode t t (code_of t x ++ rest') out'
            = if x =? PSEUDO_EOF then Some (out', rest')
              else reference_decode t t rest' (out' ++ [char_of_ext x])).
  { intros x Hx Hin rest' out'.
    pose proof (code_of_leaf t x Hwf Hx Hin) as Hc.
    apply reference_decode_code; [exact Hwf | | exact Hc].
    clear - Ht Hz Hc. subst t. exact (leaf_codes_inner_nonempty _ _ _ _ _ Hz Hc). }
  induction chars as [|c chars IH]; intros out Hin; unfold encoding; cbn [flat_map].
  - cbn [app]. rewrite Hcode by (exact Heof || discriminate).
    rewrite app_nil_r. reflexivity.
  - rewrite <- !app_assoc.
    pose proof (ext_of_char_range c) as Hr.
    rewrite Hcode; [| unfold NOT_A_CHAR; lia | apply Hin; left; reflexivity].
    replace (ext_of_char c =? PSEUDO_EOF) with false
      by (symmetry; apply Z.eqb_neq; unfold PSEUDO_EOF; lia).
    rewrite char_of_ext_of_char.
    specialize (IH (out ++ [c])). unfold encoding in IH.
    rewrite <- !app_assoc in IH. rewrite IH.
    + reflexivity.
    + intros c' Hc'. apply Hin. right. exact Hc'.
Qed.

(** ** The encoder *)

Lemma searchCharacterInTree_returns t x :
  well_formed t = true -> x <> NOT_A_CHAR ->
  exists code, searchCharacterInTree t x = Ok code.
Proof.
  intros Hwf Hx.
  destruct (searchCharacterInTree_spec x Hx t Hwf) as (p & Hp & _). eauto.
Qed.

(** The table of codes already found does not change what is written. *)
Lemma encodeFile_loop_bits t :
  well_formed t = true ->
  forall chars (encodingMap : Map.t cstring) outfile,
    (forall k code, Map.get encodingMap k = Some code ->
                    searchCharacterInTree t k = Ok code) ->
    encodeFile_loop chars t encodingMap outfile
    = (Ok tt,
       fold_left writeBit (flat_map (fun c => code_of t (ext_of_char c)) chars) outfile).
Proof.
  intros Hwf.
  induction chars as [|c chars IH]; intros cache out Hcache; [reflexivity|].
  cbn [encodeFile_loop flat_map]. cbn zeta.
  rewrite fold_left_app.
  pose proof (ext_of_char_range c) as Hr.
  unfold Map.containsKey, Map.at_. unfold cstring in *.
  destruct (Map.get cache (ext_of_char c)) as [code|] eqn:Hget.
  - pose proof (Hcache _ _ Hget) as Hs.
    rewrite IH by exact Hcache.
    assert (Hcode : code_of t (ext_of_char c) = bits_of_text code)
      by (unfold code_of; rewrite Hs; reflexivity).
    rewrite Hcode, writeBits_bits. reflexivity.
  - destruct (searchCharacterInTree_returns t (ext_of_char c) Hwf) as [code Hs];
      [unfold NOT_A_CHAR; lia|].
    assert (Hcode : code_of t (ext_of_char c) = bits_of_text code)
      by (unfold code_of; rewrite Hs; reflexivity).
    rewrite Hs, IH.
    + rewrite Hcode, writeBits_bits. reflexivity.
    + intros k code' Hk. destruct (Z.eq_dec k (ext_of_char c)) as [->|Hne].
      * rewrite get_put_same in Hk. injection Hk as <-. exact Hs.
      * rewrite get_put_other in Hk by exact Hne. exact (Hcache _ _ Hk).
Qed.

Lemma encodeFile_bits t infile outfile :
  well_formed t = true ->
  encodeFile infile t outfile
  = (Ok tt, fold_left writeBit (encoding t (unread infile)) outfile).
Proof.
  intros Hwf. unfold encodeFile.
  rewrite encodeFile_loop_bits; [|exact Hwf|intros k code; discriminate].
  destruct (searchCharacterInTree_returns t PSEUDO_EOF Hwf) as [code Hs];
    [discriminate|].
  assert (Hcode : code_of t PSEUDO_EOF = bits_of_text code)
    by (unfold code_of; rewrite Hs; reflexivity).
  unfold encoding. rewrite fold_left_app, Hs, Hcode, writeBits_bits. reflexivity.
Qed.

Lemma freeTree_well_formed t : well_formed t = true -> freeTree t = Ok tt.
Proof.
  revert t. apply well_formed_ind.
  - intros c w Hc. cbn [freeTree]. apply Z.eqb_neq in Hc. rewrite Hc. reflexivity.
  - intros zero one w _ _ Hz Ho. cbn [freeTree]. rewrite Z.eqb_refl, Hz, Ho.
    reflexivity.
Qed.

(** ** The frequency table *)

Lemma key_iff_get {V : Type} (m : Map.t V) k :
  In k (Map.keys m) <-> Map.get m k <> None.
Proof.
  split.
  - intros Hin Hnone. exact (get_none_not_key m k Hnone Hin).
  - intros Hget. destruct (Map.get m k) as [v|] eqn:E; [|contradiction Hget; reflexivity].
    apply get_In in E. unfold Map.keys. apply in_map_iff. exists (k, v). auto.
Qed.

Lemma key_put {V : Type} (m : Map.t V) k v j :
  In j (Map.keys (Map.put m k v)) <-> j = k \/ In j (Map.keys m).
Proof.
  rewrite !key_iff_get. destruct (Z.eq_dec j k) as [->|Hne].
  - rewrite get_put_same. split; [auto | discriminate].
  - rewrite get_put_other by exact Hne. tauto.
Qed.

Lemma getFrequencyTable_loop_spec : forall chars (m : Map.t Z),
  ordered m = true -> Forall entry_fits m ->
  ordered (getFrequencyTable_loop chars m) = true /\
  Forall entry_fits (getFrequencyTable_loop chars m) /\
  (forall c, In c chars -> In (ext_of_char c) (Map.keys (getFrequencyTable_loop chars m))) /\
  (forall k, In k (Map.keys m) -> In k (Map.keys (getFrequencyTable_loop chars m))).
Proof.
  induction chars as [|c chars IH]; intros m Hm Hfit; cbn [getFrequencyTable_loop].
  - repeat split; auto. intros c [].
  - cbn zeta.
    set (v := if Map.containsKey m (ext_of_char c)
              then int_wrap (Map.at_ 0 m (ext_of_char c) + 1) else 1).
    replace (if Map.containsKey m (ext_of_char c)
             then Map.put m (ext_of_char c) (int_wrap (Map.at_ 0 m (ext_of_char c) + 1))
             else Map.put m (ext_of_char c) 1)
      with (Map.put m (ext_of_char c) v)
      by (unfold v; destruct (Map.containsKey m (ext_of_char c)); reflexivity).
    assert (Hv : in_int v).
    { unfold v. destruct (Map.containsKey m (ext_of_char c)).
      - apply int_wrap_in_int.
      - unfold in_int, INT_MIN, INT_MAX. lia. }
    destruct (IH (Map.put m (ext_of_char c) v)) as (Ho & Hf & Hc & Hk).
    + apply ordered_put. exact Hm.
    + apply Forall_forall. intros e He. apply put_In in He.
      destruct He as [->|He].
      * split; [apply ext_of_char_range | exact Hv].
      * rewrite Forall_forall in Hfit. auto.
    + repeat split; [exact Ho | exact Hf | |].
      * intros c' [<-|Hc']; [|auto]. apply Hk, key_put. left. reflexivity.
      * intros k Hin. apply Hk, key_put. right. exact Hin.
Qed.

Lemma getFrequencyTable_spec S :
  let m := getFrequencyTable (open_in S) in
  ordered m = true /\ table_fits m /\ Map.get m PSEUDO_EOF = Some 1 /\
  (forall c, In c S -> In (ext_of_char c) (Map.keys m)) /\
  In PSEUDO_EOF (Map.keys m) /\ ~ In NOT_A_CHAR (Map.keys m).
Proof.
  cbn zeta. unfold getFrequencyTable, open_in. cbn [unread].
  destruct (getFrequencyTable_loop_spec S Map.empty eq_refl (Forall_nil _))
    as (Ho & Hf & Hc & _).
  assert (Hfit : table_fits (Map.put (getFrequencyTable_loop S Map.empty) PSEUDO_EOF 1)).
  { intros e He. apply put_In in He. destruct He as [->|He]; [left; reflexivity|].
    right. rewrite Forall_forall in Hf. auto. }
  repeat split.
  - apply ordered_put. exact Ho.
  - exact Hfit.
  - apply get_put_same.
  - intros c Hin. apply key_put. right. auto.
  - apply key_put. left. reflexivity.
  - intros Hin. unfold Map.keys in Hin. apply in_map_iff in Hin.
    destruct Hin as (e & He & Hin). destruct (Hfit e Hin) as [E|[E _]].
    + rewrite He in E. discriminate.
    + rewrite He in E. unfold NOT_A_CHAR in E. lia.
Qed.

(** ** Compressing and decompressing *)

(** What [compress] writes: the header of the frequency table, then the
    encoding of the input packed into bytes. *)
Lemma compress_spec S :
  let m := getFrequencyTable (open_in S) in
  exists t bytes k,
    buildEncodingTree m = Ok t /\ well_formed t = true /\
    Permutation (leaves t) (Map.keys m) /\
    fst (compress (open_in S) open_out) = Ok tt /\
    compressed S = header_layout m ++ bytes /\
    flat_map bits_of_char bytes = encoding t S ++ repeat false k.
Proof.
  cbn zeta.
  destruct (getFrequencyTable_spec S) as (Hm & Hfit & Hget & Hchars & Heof & Hnot).
  set (m := getFrequencyTable (open_in S)) in *.
  assert (Hne : m <> []) by (intros E; rewrite E in Heof; exact Heof).
  destruct (buildEncodingTree_well_formed m Hne Hnot) as (t & Ht & Hwf & Hperm).
  assert (Hkey : Map.containsKey m PSEUDO_EOF = true)
    by (unfold Map.containsKey; rewrite Hget; reflexivity).
  assert (Hsize : in_int (Map.size m)).
  { pose proof (table_fits_size m Hm Hfit). unfold in_int, INT_MIN, INT_MAX. lia. }
  destruct (writeFileHeader_contents open_out m Hm Hkey Hsize) as (Hok & Hcont & Hcur).
  destruct (writeFileHeader open_out m) as [r o1] eqn:Hw. cbn [fst snd] in *. subst r.
  assert (Hwritten : written o1 = header_layout m).
  { unfold contents in Hcont. rewrite Hcur in Hcont. exact Hcont. }
  destruct (write_bits_contents (encoding t S) o1) as (bytes & k & Hc & Hf);
    [rewrite Hcur; cbn; lia|].
  rewrite Hcur, Hwritten in *. cbn [app] in Hf.
  exists t, bytes, k.
  assert (Hcompress : compress (open_in S) open_out
                      = (Ok tt, fold_left writeBit (encoding t S) o1)).
  { unfold compress. fold m. rewrite Hw, Ht.
    rewrite (encodeFile_bits t _ o1 Hwf). cbn [rewind open_in whole unread].
    rewrite (freeTree_well_formed t Hwf). reflexivity. }
  unfold compressed. rewrite Hcompress. cbn [fst snd]. auto 10.
Qed.

Lemma leaves_length_single c w : length (leaves (Node c NULL NULL w)) = 1%nat.
Proof. reflexivity. Qed.

(** Decompressing the file that [compress] leaves for an input that is not
    empty gives the input back. *)
Lemma round_trip_nonempty S :
  S <> [] ->
  fst (compress (open_in S) open_out) = Ok tt /\
  exists n, forall fuel, (n <= fuel)%nat ->
    decompressed fuel (compressed S) = (Ok tt, S).
Proof.
  intros HS.
  destruct (getFrequencyTable_spec S) as (Hm & Hfit & Hget & Hchars & Heof & Hnot).
  destruct (compress_spec S) as (t & bytes & k & Ht & Hwf & Hperm & Hok & Hfile & Hbits).
  set (m := getFrequencyTable (open_in S)) in *.
  split; [exact Hok|].
  (* the tree has an inner node at its root *)
  assert (Hroot : exists zero one w, t = Node NOT_A_CHAR zero one w /\
                    well_formed zero = true /\ well_formed one = true).
  { destruct (well_formed_cases t Hwf) as [(c & w & -> & Hc)|H]; [|exact H].
    exfalso. destruct S as [|c0 S]; [contradiction HS; reflexivity|].
    pose proof (Hchars c0 (or_introl eq_refl)) as H0.
    apply (Permutation_in _ (Permutation_sym Hperm)) in H0.
    apply (Permutation_in _ (Permutation_sym Hperm)) in Heof.
    destruct H0 as [E0|[]]. destruct Heof as [E1|[]].
    pose proof (ext_of_char_range c0). unfold PSEUDO_EOF in E1. lia. }
  destruct Hroot as (zero & one & w & Hnode & Hz & Ho).
  assert (Href : reference_decode t t (encoding t S ++ repeat false k) []
                 = Some (S, repeat false k)).
  { rewrite (reference_decode_encoding t zero one w _ Hnode Hwf); [reflexivity | |].
    - exact (Permutation_in _ (Permutation_sym Hperm) Heof).
    - intros c Hc. exact (Permutation_in _ (Permutation_sym Hperm) (Hchars c Hc)). }
  exists (length (encoding t S ++ repeat false k)). intros fuel Hfuel.
  unfold decompressed, decompress, open_in. rewrite Hfile.
  rewrite (header_round_trip _ m bytes Hm Hfit Hget). fold m in Ht. rewrite Ht.
  set (infile := {| whole := header_layout m ++ bytes; unread := bytes; curBits := [] |}).
  assert (Hpend : pending infile = encoding t S ++ repeat false k)
    by (unfold pending; cbn [infile curBits unread app]; exact Hbits).
  assert (Hfol : follow t (text_of_bits []) = Ok (Node NOT_A_CHAR zero one w))
    by (rewrite Hnode; reflexivity).
  assert (Href' : reference_decode t (Node NOT_A_CHAR zero one w)
                    (encoding t S ++ repeat false k) [] = Some (S, repeat false k))
    by (rewrite <- Hnode; exact Href).
  destruct (decodeFile_loop_refines t zero one w Hnode Hz Ho _ fuel infile
              [] [] NOT_A_CHAR zero one w S (repeat false k)
              Hfuel Hpend Hfol Hz Ho Href') as (infile' & Hdec & _).
  unfold decodeFile. cbn [text_of_bits map] in Hdec. rewrite Hdec.
  rewrite (freeTree_well_formed t Hwf). reflexivity.
Qed.

(** ** Main results *)

(** C1, round-trip identity, at the empty input.  The file [compress]
    leaves for the empty byte sequence holds the header only; [decompress]
    builds the one-leaf tree from it, [decodeFile] reads a bit that is not
    there and [searchCodeInTree] steps below the leaf: the run ends in a
    null dereference instead of returning the empty output.  (For every
    input that is not empty the round trip holds, [round_trip_nonempty].) *)
Theorem C1_round_trip_breaks_on_empty_input :
  forall fuel, decompressed (S fuel) (compressed []) = (Abort NullDereference, []).
Proof. intros fuel. vm_compute. reflexivity. Qed.

(** C3, empty input.  Compressing the empty input succeeds and writes the
    header "0 " followed by the code of [PSEUDO_EOF], which in the one-leaf
    tree is the empty code, so the body has no bit; decompressing that file
    does not return: it ends in a null dereference, with nothing written. *)
Theorem C3_empty_input_compresses_but_does_not_decompress :
  compress (open_in []) open_out = (Ok tt, {| written := lit "0 "; curByte := [] |}) /\
  (exists t, buildEncodingTree (getFrequencyTable (open_in [])) = Ok t /\
             encoding t [] = code_of t PSEUDO_EOF /\ code_of t PSEUDO_EOF = []) /\
  (forall fuel,
     decompress (S fuel) (open_in (lit "0 ")) [] = (Abort NullDereference, [])).
Proof.
  split; [vm_compute; reflexivity|]. split.
  - eexists. split; [vm_compute; reflexivity|]. split; vm_compute; reflexivity.
  - intros fuel. vm_compute. reflexivity.
Qed.

Lemma follow_aborts t code e : follow t code = Abort e -> e = NullDereference.
Proof.
  revert t. induction code as [|c code IH]; intros t; cbn [follow]; [discriminate|].
  destruct t as [|ch zero one w].
  - destruct (Ascii.eqb c "0"); cbn; intros [= <-]; reflexivity.
  - destruct (Ascii.eqb c "0"); cbn [zero_of one_of deref bind]; apply IH.
Qed.

Lemma searchCodeInTree_aborts t code e :
  searchCodeInTree t code = Abort e -> e = NullDereference.
Proof.
  unfold searchCodeInTree. destruct (follow t code) as [n|e'] eqn:Hf; cbn [bind].
  - destruct n; cbn; [intros [= <-]; reflexivity | discriminate].
  - intros [= <-]. exact (follow_aborts t code e' Hf).
Qed.

Lemma decodeFile_loop_outcomes : forall fuel infile t code file,
  let r := fst (fst (decodeFile_loop fuel infile t code file)) in
  r = Ok tt \/ r = Abort NullDereference \/ r = Abort OutOfFuel.
Proof.
  induction fuel as [|fuel IH]; intros infile t code file; cbn zeta.
  - right. right. reflexivity.
  - cbn [decodeFile_loop]. destruct (readBit infile) as [bit infile1].
    destruct (searchCodeInTree t (code ++ integerToString bit)) as [ch|e] eqn:Hs.
    + destruct (ch =? PSEUDO_EOF); [left; reflexivity|].
      destruct (negb (ch =? NOT_A_CHAR)); apply IH.
    + right. left. cbn [fst]. f_equal. exact (searchCodeInTree_aborts _ _ _ Hs).
Qed.

(** On an exhausted source [readBit] returns [EOF] and leaves the source
    exhausted. *)
Lemma readBit_exhausted infile :
  pending infile = [] -> readBit infile = (EOF, exhaust infile).
Proof.
  unfold pending, readBit. intros H.
  apply app_eq_nil in H. destruct H as [Hc Hu]. rewrite Hc.
  destruct (unread infile) as [|c r]; [reflexivity|].
  cbn [flat_map] in Hu. apply app_eq_nil in Hu. destruct Hu as [Hu _].
  destruct c. discriminate.
Qed.

Lemma reads_exhausted : forall n infile,
  pending infile = [] ->
  fst (reads n infile) = concat (repeat (lit "-1") n) /\
  pending (snd (reads n infile)) = [].
Proof.
  induction n as [|n IH]; intros infile Hp; cbn [reads repeat concat].
  - split; [reflexivity | exact Hp].
  - rewrite (readBit_exhausted infile Hp).
    destruct (IH (exhaust infile) eq_refl) as [Ht Hr].
    destruct (reads n (exhaust infile)) as [text infile1]. cbn [fst snd] in *.
    rewrite Ht. split; [reflexivity | exact Hr].
Qed.

(** A run that returns normally has read a sequence of texts at which it
    wrote a symbol each, and then one that leads to the sentinel. *)
Lemma decodeFile_loop_normal_return : forall fuel infile t code file infile' out,
  decodeFile_loop fuel infile t code file = (Ok tt, infile', out) ->
  exists n codes symbols last text,
    (n <= fuel)%nat /\
    reads n infile = (text, infile') /\
    code ++ text = concat codes ++ last /\
    Forall2 (decodes_to t) codes symbols /\
    out = file ++ map char_of_ext symbols /\
    searchCodeInTree t last = Ok PSEUDO_EOF.
Proof.
  induction fuel as [|fuel IH]; intros infile t code file infile' out;
    cbn [decodeFile_loop]; [discriminate|].
  destruct (readBit infile) as [bit infile1] eqn:Hrb.
  destruct (searchCodeInTree t (code ++ integerToString bit)) as [ch|e] eqn:Hs;
    [|discriminate].
  destruct (ch =? PSEUDO_EOF) eqn:Heof.
  - intros [= <- <-]. apply Z.eqb_eq in Heof. subst ch.
    exists 1%nat, [], [], (code ++ integerToString bit), (integerToString bit).
    cbn [reads]. rewrite Hrb. cbn [concat map app]. rewrite !app_nil_r.
    repeat split; [lia | constructor | exact Hs].
  - apply Z.eqb_neq in Heof.
    destruct (ch =? NOT_A_CHAR) eqn:Hnot; cbn [negb]; intros Hrun.
    + destruct (IH _ _ _ _ _ _ Hrun)
        as (n & codes & symbols & last & text & Hn & Hr & Ht & Hc & Ho & Hl).
      exists (S n), codes, symbols, last, (integerToString bit ++ text).
      cbn [reads]. rewrite Hrb, Hr. rewrite app_assoc.
      repeat split; [lia | exact Ht | exact Hc | exact Ho | exact Hl].
    + apply Z.eqb_neq in Hnot.
      destruct (IH _ _ _ _ _ _ Hrun)
        as (n & codes & symbols & last & text & Hn & Hr & Ht & Hc & Ho & Hl).
      cbn [app] in Ht.
      exists (S n), ((code ++ integerToString bit) :: codes), (ch :: symbols), last,
             (integerToString bit ++ text).
      cbn [reads]. rewrite Hrb, Hr. cbn [concat map].
      repeat split.
      * lia.
      * rewrite Ht, !app_assoc. reflexivity.
      * constructor; [|exact Hc]. repeat split; assumption.
      * rewrite Ho, <- app_assoc. reflexivity.
      * exact Hl.
Qed.

(** C2 as amended.  [decodeFile] makes no test for the end of the bit
    source and signals no failure.  When the source is exhausted the round
    goes on as for any bit, with "-1", the text of the [EOF] that [readBit]
    returns, joined to the code, and so does every later round.  A run
    never ends in a call of [error]; when it returns normally, the text of
    what it read ("-1" for every read past the end) is a sequence of texts
    at which it wrote a symbol each, followed by one that leads to the
    [PSEUDO_EOF] leaf. *)
Theorem C2_decodeFile_signals_no_failure
    (fuel : nat) (infile : ibstream) (t : NodePtr) (file : ostream) :
  (let r := fst (fst (decodeFile fuel infile t file)) in
   r = Ok tt \/ r = Abort NullDereference \/ r = Abort OutOfFuel) /\
  (pending infile = [] ->
   (forall code,
      decodeFile_loop (S fuel) infile t code file
      = match searchCodeInTree t (code ++ lit "-1") with
        | Abort e => (Abort e, exhaust infile, file)
        | Ok character =>
            if character =? PSEUDO_EOF then (Ok tt, exhaust infile, file)
            else if negb (character =? NOT_A_CHAR)
            then decodeFile_loop fuel (exhaust infile) t []
                   (file ++ [char_of_ext character])
            else decodeFile_loop fuel (exhaust infile) t (code ++ lit "-1") file
        end) /\
   (forall n, fst (reads n infile) = concat (repeat (lit "-1") n))) /\
  (forall infile' out,
     decodeFile fuel infile t file = (Ok tt, infile', out) ->
     exists n codes symbols last,
       (n <= fuel)%nat /\
       reads n infile = (concat codes ++ last, infile') /\
       Forall2 (decodes_to t) codes symbols /\
       out = file ++ map char_of_ext symbols /\
       searchCodeInTree t last = Ok PSEUDO_EOF).
Proof.
  split; [apply decodeFile_loop_outcomes|]. split.
  - intros Hp. split.
    + intros code. cbn [decodeFile_loop]. rewrite (readBit_exhausted infile Hp).
      reflexivity.
    + intros n. apply reads_exhausted, Hp.
  - intros infile' out Hrun. unfold decodeFile in Hrun.
    destruct (decodeFile_loop_normal_return _ _ _ _ _ _ _ Hrun)
      as (n & codes & symbols & last & text & Hn & Hr & Ht & Hc & Ho & Hl).
    cbn [app] in Ht. subst text. exists n, codes, symbols, last. auto.
Qed.

Lemma C2_decodeFile_signals_no_failure_witness :
  pending (open_in []) = [] /\
  decodeFile 1 (open_in []) tree_aab [] = (Ok tt, open_in [], []) /\
  exists n codes symbols last,
    (n <= 1)%nat /\
    reads n (open_in []) = (concat codes ++ last, open_in []) /\
    Forall2 (decodes_to tree_aab) codes symbols /\
    [] = [] ++ map char_of_ext symbols /\
    searchCodeInTree tree_aab last = Ok PSEUDO_EOF.
Proof.
  assert (H : decodeFile 1 (open_in []) tree_aab [] = (Ok tt, open_in [], []))
    by (vm_compute; reflexivity).
  split; [reflexivity|]. split; [exact H|].
  exact (proj2 (proj2 (C2_decodeFile_signals_no_failure 1 (open_in []) tree_aab []))
           (open_in []) [] H).
Defined.

(** C2 as stated fails.  On the tree built for the input "aab" (codes a = 0,
    b = 10, sentinel = 11) and a bit source with no bit at all, [decodeFile]
    takes the two characters of "-1", the text of [EOF], for two steps to
    [one], lands on the sentinel leaf and returns normally.  Likewise
    [decompress], on the header of that file with the whole body cut off,
    returns normally with nothing written. *)
Lemma C2_truncated_stream_decodes_silently :
  buildEncodingTree (getFrequencyTable (open_in (lit "aab"))) = Ok tree_aab /\
  pending (open_in []) = [] /\
  decodeFile 1 (open_in []) tree_aab [] = (Ok tt, open_in [], []) /\
  ~ signals_failure (fst (fst (decodeFile 1 (open_in []) tree_aab []))) /\
  compressed (lit "aab") = lit "2 a2 b1 4" /\
  decompressed 1 (lit "2 a2 b1 ") = (Ok tt, []).
Proof.
  repeat split; try (vm_compute; reflexivity).
  intros [msg H]. vm_compute in H. discriminate.
Qed.

(** C4, single repeated byte.  For [n >= 1] copies of one byte, [compress]
    succeeds and [decompress], given enough fuel for its decoding loop,
    returns normally with exactly the [n] copies written. *)
Theorem C4_single_symbol_round_trip (c : ascii) (n : nat) :
  (1 <= n)%nat ->
  fst (compress (open_in (repeat c n)) open_out) = Ok tt /\
  exists n0, forall fuel, (n0 <= fuel)%nat ->
    decompressed fuel (compressed (repeat c n)) = (Ok tt, repeat c n).
Proof.
  intros Hn. apply round_trip_nonempty.
  destruct n; [lia | discriminate].
Qed.

Lemma C4_single_symbol_round_trip_witness :
  (1 <= 3)%nat /\
  fst (compress (open_in (repeat "A"%char 3)) open_out) = Ok tt /\
  exists n0, forall fuel, (n0 <= fuel)%nat ->
    decompressed fuel (compressed (repeat "A"%char 3)) = (Ok tt, repeat "A"%char 3).
Proof.
  split; [lia | apply (C4_single_symbol_round_trip "A"%char 3); lia].
Defined.

(** C5, header round trip.  For an (ordered) frequency map whose keys other
    than the sentinel are byte values with positive [int] counts and which
    maps the sentinel to 1, [writeFileHeader] succeeds and [readFileHeader],
    on what was written and whatever follows it, returns the same map and
    leaves the stream right behind the header. *)
Theorem C5_header_round_trip (M : Map.t Z) (body : cstring) :
  ordered M = true ->
  (forall k f, In (k, f) M -> k <> PSEUDO_EOF -> 0 <= k <= 255 /\ 0 < f <= INT_MAX) ->
  Map.get M PSEUDO_EOF = Some 1 ->
  exists o rest,
    writeFileHeader open_out M = (Ok tt, o) /\
    readFileHeader (open_in (contents o ++ body)) = Ok (M, rest) /\
    unread rest = body.
Proof.
  intros Hm Hentries Hget.
  assert (Hfit : table_fits M).
  { intros [k f] He. cbn [fst]. destruct (Z.eq_dec k PSEUDO_EOF) as [->|Hne];
      [left; reflexivity|]. right.
    destruct (Hentries k f He Hne) as [Hk Hf]. split; [exact Hk|].
    cbn [snd]. unfold in_int, INT_MIN, INT_MAX in *. lia. }
  assert (Hkey : Map.containsKey M PSEUDO_EOF = true)
    by (unfold Map.containsKey; rewrite Hget; reflexivity).
  assert (Hsize : in_int (Map.size M)).
  { pose proof (table_fits_size M Hm Hfit). unfold in_int, INT_MIN, INT_MAX. lia. }
  destruct (writeFileHeader_contents open_out M Hm Hkey Hsize) as (Hok & Hcont & _).
  destruct (writeFileHeader open_out M) as [r o]. cbn [fst snd] in *. subst r.
  exists o. eexists. split; [reflexivity|].
  rewrite Hcont. cbn [contents open_out curByte written app]. unfold open_in.
  rewrite (header_round_trip _ M body Hm Hfit Hget). split; reflexivity.
Qed.

Lemma C5_header_round_trip_witness :
  ordered table_aab = true /\
  (forall k f, In (k, f) table_aab -> k <> PSEUDO_EOF ->
               0 <= k <= 255 /\ 0 < f <= INT_MAX) /\
  Map.get table_aab PSEUDO_EOF = Some 1 /\
  exists o rest,
    writeFileHeader open_out table_aab = (Ok tt, o) /\
    readFileHeader (open_in (contents o ++ lit "4")) = Ok (table_aab, rest) /\
    unread rest = lit "4".
Proof.
  assert (H : forall k f, In (k, f) table_aab -> k <> PSEUDO_EOF ->
                          0 <= k <= 255 /\ 0 < f <= INT_MAX).
  { intros k f [E|[E|[E|[]]]] Hk; injection E as <- <-;
      unfold INT_MAX, PSEUDO_EOF in *; lia. }
  split; [reflexivity|]. split; [exact H|]. split; [reflexivity|].
  apply (C5_header_round_trip table_aab (lit "4")); [reflexivity | exact H | reflexivity].
Defined.

(** C6, missing sentinel.  When the map has no entry for [PSEUDO_EOF],
    [writeFileHeader] ends in the call [error("No PSEUDO_EOF defined.")] and
    the output stream is as it was. *)
Theorem C6_missing_sentinel (outfile : obstream) (frequencies : Map.t Z) :
  Map.containsKey frequencies PSEUDO_EOF = false ->
  writeFileHeader outfile frequencies
  = (Abort (ErrorCall "No PSEUDO_EOF defined."), outfile) /\
  signals_failure (fst (writeFileHeader outfile frequencies)).
Proof.
  intros H. unfold writeFileHeader. rewrite H. cbn [negb fst].
  split; [reflexivity|]. eexists. reflexivity.
Qed.

Lemma C6_missing_sentinel_witness :
  Map.containsKey [(97, 2); (98, 1)] PSEUDO_EOF = false /\
  writeFileHeader (put_char open_out "x") [(97, 2); (98, 1)]
  = (Abort (ErrorCall "No PSEUDO_EOF defined."), put_char open_out "x") /\
  signals_failure (fst (writeFileHeader (put_char open_out "x") [(97, 2); (98, 1)])).
Proof.
  split; [reflexivity|].
  apply (C6_missing_sentinel (put_char open_out "x") [(97, 2); (98, 1)]).
  reflexivity.
Defined.

(** C7, header layout.  For an (ordered) frequency map with an entry for
    the sentinel, whose size fits the [int] that [size()] returns,
    [writeFileHeader] succeeds and appends exactly the layout of the spec:
    the count of the entries other than the sentinel's in decimal, a space,
    and per such entry its byte, its frequency in decimal and a space;
    nothing is written for the sentinel. *)
Theorem C7_header_layout (outfile : obstream) (frequencies : Map.t Z) :
  ordered frequencies = true ->
  Map.containsKey frequencies PSEUDO_EOF = true ->
  in_int (Map.size frequencies) ->
  exists o,
    writeFileHeader outfile frequencies = (Ok tt, o) /\
    contents o = contents outfile ++ header_layout frequencies.
Proof.
  intros Hm Hkey Hsize.
  destruct (writeFileHeader_contents outfile frequencies Hm Hkey Hsize)
    as (Hok & Hcont & _).
  destruct (writeFileHeader outfile frequencies) as [r o]. cbn [fst snd] in *.
  subst r. exists o. split; [reflexivity | exact Hcont].
Qed.

Lemma C7_header_layout_witness :
  ordered table_aab = true /\
  Map.containsKey table_aab PSEUDO_EOF = true /\
  in_int (Map.size table_aab) /\
  exists o,
    writeFileHeader open_out table_aab = (Ok tt, o) /\
    contents o = contents open_out ++ header_layout table_aab.
Proof.
  assert (H : in_int (Map.size table_aab))
    by (unfold in_int, INT_MIN, INT_MAX; vm_compute; split; discriminate).
  split; [reflexivity|]. split; [reflexivity|]. split; [exact H|].
  apply (C7_header_layout open_out table_aab); [reflexivity | reflexivity | exact H].
Defined.

(** C8, the decoder against the reference decoder, on the tree that is
    the lone sentinel leaf (the tree of the empty input).  The reference
    decoder of the spec stops at once there, with no bit consumed and
    nothing written; [decodeFile] reads a bit all the same, steps below the
    leaf and ends in a null dereference.  (On every other encoding tree
    [decodeFile] does what the reference decoder does, by
    [decodeFile_loop_refines].) *)
Theorem C8_decodeFile_departs_on_lone_sentinel
    (w : Z) (fuel : nat) (infile : ibstream) (file : ostream) :
  buildEncodingTree (getFrequencyTable (open_in [])) = Ok (Node PSEUDO_EOF NULL NULL 1) /\
  well_formed (Node PSEUDO_EOF NULL NULL w) = true /\
  reference_decoder (Node PSEUDO_EOF NULL NULL w) (pending infile) file
  = Some (file, pending infile) /\
  decodeFile (S fuel) infile (Node PSEUDO_EOF NULL NULL w) file
  = (Abort NullDereference, snd (readBit infile), file).
Proof.
  split; [vm_compute; reflexivity|]. split; [reflexivity|]. split; [reflexivity|].
  unfold decodeFile. cbn [decodeFile_loop].
  destruct (readBit infile) as [bit infile1]. cbn [app snd].
  destruct (integerToString bit) as [|ch rest] eqn:Hbit.
  - exfalso. revert Hbit. unfold integerToString.
    destruct bit as [|p|p]; cbn [Z.to_int]; try discriminate.
    destruct (chars_of_uint_head (Pos.to_uint p)
                (DecimalPos.Unsigned.to_uint_nonnil p)) as (c & r & -> & _).
    discriminate.
  - unfold searchCodeInTree. cbn [follow].
    destruct (Ascii.eqb ch "0"); cbn [zero_of one_of deref bind];
      destruct rest as [|ch' rest]; cbn [follow]; try reflexivity;
      destruct (Ascii.eqb ch' "0"); reflexivity.
Qed.

(** C9, prefix code.  For a frequency map that is not empty,
    [buildEncodingTree] returns a tree; its leaves carry the keys of the
    map, one leaf per entry, and no leaf's root-to-leaf path is a prefix of
    the path of another leaf. *)
Theorem C9_built_tree_is_prefix_code (frequencies : Map.t Z) :
  frequencies <> [] ->
  exists t,
    buildEncodingTree frequencies = Ok t /\
    Permutation (leaves t) (Map.keys frequencies) /\
    prefix_free (codes t).
Proof.
  intros Hne.
  destruct (buildEncodingTree_returns frequencies Hne) as (t & Ht & _ & Hperm).
  exists t. split; [exact Ht|]. split; [exact Hperm | apply codes_prefix_free].
Qed.

Lemma C9_built_tree_is_prefix_code_witness :
  table_aab <> [] /\
  exists t,
    buildEncodingTree table_aab = Ok t /\
    Permutation (leaves t) (Map.keys table_aab) /\
    prefix_free (codes t).
Proof.
  split; [discriminate|].
  apply (C9_built_tree_is_prefix_code table_aab). discriminate.
Defined.

Lemma flat_map_skip {A B : Type} (f : A -> list B) before x after :
  f x = [] -> flat_map f (before ++ x :: after) = flat_map f (before ++ after).
Proof.
  intros Hx. rewrite !flat_map_app. cbn [flat_map]. rewrite Hx. reflexivity.
Qed.

(** C10, a byte that is not in the tree.  On an encoding tree without a
    leaf for the byte [c], [searchCharacterInTree] returns the empty text;
    [encodeFile] then returns normally on any input with [c] in it and has
    written what it writes for the input with that [c] left out. *)
Theorem C10_absent_byte_skipped (t : NodePtr) (c : ascii) :
  well_formed t = true ->
  ~ In (ext_of_char c) (leaves t) ->
  searchCharacterInTree t (ext_of_char c) = Ok [] /\
  forall before after outfile,
    fst (encodeFile (open_in (before ++ c :: after)) t outfile) = Ok tt /\
    encodeFile (open_in (before ++ c :: after)) t outfile
    = encodeFile (open_in (before ++ after)) t outfile.
Proof.
  intros Hwf Hnin.
  pose proof (ext_of_char_range c) as Hr.
  assert (Hs : searchCharacterInTree t (ext_of_char c) = Ok []).
  { destruct (searchCharacterInTree_spec (ext_of_char c)) with (t := t)
      as (p & Hp & [Hin | [-> _]]); [unfold NOT_A_CHAR; lia | exact Hwf | | exact Hp].
    exfalso. apply Hnin. unfold leaves. apply in_map_iff.
    exists (ext_of_char c, p). auto. }
  split; [exact Hs|]. intros before after outfile.
  rewrite !encodeFile_bits by exact Hwf. cbn [open_in unread fst].
  split; [reflexivity|]. unfold encoding.
  rewrite (flat_map_skip (fun c0 => code_of t (ext_of_char c0))); [reflexivity|].
  unfold code_of. rewrite Hs. reflexivity.
Qed.

Lemma C10_absent_byte_skipped_witness :
  well_formed tree_aab = true /\
  ~ In (ext_of_char "z") (leaves tree_aab) /\
  searchCharacterInTree tree_aab (ext_of_char "z") = Ok [] /\
  forall before after outfile,
    fst (encodeFile (open_in (before ++ "z"%char :: after)) tree_aab outfile) = Ok tt /\
    encodeFile (open_in (before ++ "z"%char :: after)) tree_aab outfile
    = encodeFile (open_in (before ++ after)) tree_aab outfile.
Proof.
  assert (H : ~ In (ext_of_char "z") (leaves tree_aab))
    by (vm_compute; intros [H|[H|[H|[]]]]; discriminate).
  split; [reflexivity|]. split; [exact H|].
  apply (C10_absent_byte_skipped tree_aab "z"%char); [reflexivity | exact H].
Defined.

(** * Further properties of the code *)

(** ** The frequency table *)

Lemma int_wrap_add_l a b : int_wrap (int_wrap a + b) = int_wrap (a + b).
Proof.
  unfold int_wrap. f_equal.
  replace ((a + 2 ^ 31) mod 2 ^ 32 - 2 ^ 31 + b + 2 ^ 31)
    with ((a + 2 ^ 31) mod 2 ^ 32 + b) by lia.
  rewrite Z.add_mod_idemp_l by lia. f_equal. lia.
Qed.

Lemma occurrences_cons c S k :
  occurrences (c :: S) k
  = if ext_of_char c =? k then 1 + occurrences S k else occurrences S k.
Proof.
  unfold occurrences. cbn [map].
  destruct (ext_of_char c =? k) eqn:E.
  - apply Z.eqb_eq in E. rewrite count_occ_cons_eq by exact E. lia.
  - apply Z.eqb_neq in E. rewrite count_occ_cons_neq by exact E. reflexivity.
Qed.

Lemma occurrences_nonneg S k : 0 <= occurrences S k.
Proof. unfold occurrences. lia. Qed.

(** The counting loop adds, in [int] arithmetic, the occurrences of every
    symbol to what the table held for it. *)
Lemma getFrequencyTable_loop_counts : forall chars (m : Map.t Z) k,
  Map.get (getFrequencyTable_loop chars m) k
  = if occurrences chars k =? 0 then Map.get m k
    else Some (int_wrap (Map.at_ 0 m k + occurrences chars k)).
Proof.
  induction chars as [|c chars IH]; intros m k; [reflexivity|].
  cbn [getFrequencyTable_loop]. cbn zeta.
  set (x := ext_of_char c).
  assert (Hput : (if Map.containsKey m x
                  then Map.put m x (int_wrap (Map.at_ 0 m x + 1))
                  else Map.put m x 1)
                 = Map.put m x (int_wrap (Map.at_ 0 m x + 1))).
  { unfold Map.containsKey, Map.at_. destruct (Map.get m x); reflexivity. }
  rewrite Hput. clear Hput.
  set (v := int_wrap (Map.at_ 0 m x + 1)).
  rewrite IH, occurrences_cons. fold x.
  pose proof (occurrences_nonneg chars k) as Hnn.
  destruct (x =? k) eqn:Hxk.
  - apply Z.eqb_eq in Hxk. subst k.
    assert (Hat : Map.at_ 0 (Map.put m x v) x = v)
      by (unfold Map.at_; rewrite get_put_same; reflexivity).
    rewrite Hat, get_put_same.
    replace (1 + occurrences chars x =? 0) with false
      by (symmetry; apply Z.eqb_neq; lia).
    destruct (occurrences chars x =? 0) eqn:H0.
    + apply Z.eqb_eq in H0. rewrite H0. unfold v. do 2 f_equal.
    + unfold v. rewrite int_wrap_add_l. do 2 f_equal. lia.
  - apply Z.eqb_neq in Hxk.
    assert (Hat : Map.at_ 0 (Map.put m x v) k = Map.at_ 0 m k)
      by (unfold Map.at_; rewrite get_put_other by congruence; reflexivity).
    rewrite Hat, get_put_other by congruence. reflexivity.
Qed.

(** X1.  The table [getFrequencyTable] returns maps every symbol other than
    the sentinel to the number of its occurrences in the input, held in an
    [int], gives no entry to a symbol that does not occur, and maps the
    sentinel to 1. *)
Theorem X1_getFrequencyTable_counts (S : cstring) (k : ext_char) :
  Map.get (getFrequencyTable (open_in S)) k
  = if k =? PSEUDO_EOF then Some 1
    else if occurrences S k =? 0 then None
    else Some (int_wrap (occurrences S k)).
Proof.
  unfold getFrequencyTable, open_in. cbn [unread].
  destruct (k =? PSEUDO_EOF) eqn:Hk.
  - apply Z.eqb_eq in Hk. subst k. apply get_put_same.
  - apply Z.eqb_neq in Hk. rewrite get_put_other by exact Hk.
    rewrite getFrequencyTable_loop_counts. reflexivity.
Qed.

(** X2.  Whatever the input, the table of [getFrequencyTable] is in key
    order, its keys are byte values or the sentinel and never [NOT_A_CHAR],
    every byte of the input is a key, and every count is an [int]. *)
Theorem X2_getFrequencyTable_invariants (S : cstring) :
  ordered (getFrequencyTable (open_in S)) = true /\
  table_fits (getFrequencyTable (open_in S)) /\
  (forall c, In c S -> In (ext_of_char c) (Map.keys (getFrequencyTable (open_in S)))) /\
  In PSEUDO_EOF (Map.keys (getFrequencyTable (open_in S))) /\
  ~ In NOT_A_CHAR (Map.keys (getFrequencyTable (open_in S))).
Proof.
  destruct (getFrequencyTable_spec S) as (H1 & H2 & _ & H4 & H5 & H6). auto.
Qed.

(** ** The tree *)

(** X3.  For a table that is not empty and has no key [NOT_A_CHAR],
    [buildEncodingTree] returns an encoding tree: every node is either
    marked [NOT_A_CHAR] with two subtrees or carries a symbol and has no
    child; [freeTree] walks such a tree without touching a null pointer. *)
Theorem X3_built_tree_well_formed (frequencies : Map.t Z) :
  frequencies <> [] ->
  ~ In NOT_A_CHAR (Map.keys frequencies) ->
  exists t,
    buildEncodingTree frequencies = Ok t /\
    well_formed t = true /\
    freeTree t = Ok tt.
Proof.
  intros Hne Hkeys.
  destruct (buildEncodingTree_well_formed frequencies Hne Hkeys) as (t & Ht & Hwf & _).
  exists t. split; [exact Ht|]. split; [exact Hwf | apply freeTree_well_formed, Hwf].
Qed.

Lemma X3_built_tree_well_formed_witness :
  table_aab <> [] /\
  ~ In NOT_A_CHAR (Map.keys table_aab) /\
  exists t,
    buildEncodingTree table_aab = Ok t /\ well_formed t = true /\ freeTree t = Ok tt.
Proof.
  assert (H : ~ In NOT_A_CHAR (Map.keys table_aab))
    by (intros [H|[H|[H|[]]]]; discriminate).
  split; [discriminate|]. split; [exact H|].
  apply (X3_built_tree_well_formed table_aab); [discriminate | exact H].
Defined.

Lemma enqueue_In (q : PriorityQueue.t NodePtr) x p e :
  In e (PriorityQueue.enqueue q x p) <-> e = (x, p) \/ In e q.
Proof.
  induction q as [|[y p'] r IH]; cbn [PriorityQueue.enqueue].
  - cbn [In]. intuition congruence.
  - destruct (p <? p'); cbn [In] in *; [intuition congruence|].
    rewrite IH. intuition congruence.
Qed.

Lemma enqueue_sorted (q : PriorityQueue.t NodePtr) x p :
  queue_sorted q -> queue_sorted (PriorityQueue.enqueue q x p).
Proof.
  induction q as [|[y p'] r IH]; cbn [PriorityQueue.enqueue queue_sorted].
  - intros _. split; [intros e []|exact I].
  - intros [Hlow Hr]. destruct (p <? p') eqn:Hlt; cbn [queue_sorted].
    + apply Z.ltb_lt in Hlt. split; [|split; assumption].
      intros e [<-|He]; cbn [snd]; [lia|]. specialize (Hlow e He). lia.
    + apply Z.ltb_ge in Hlt. split; [|auto].
      intros e He. apply enqueue_In in He. destruct He as [->|He]; cbn [snd]; auto.
Qed.

Lemma enqueue_permutation (q : PriorityQueue.t NodePtr) x p :
  Permutation (PriorityQueue.enqueue q x p) ((x, p) :: q).
Proof.
  induction q as [|[y p'] r IH]; cbn [PriorityQueue.enqueue].
  - apply Permutation_refl.
  - destruct (p <? p'); [apply Permutation_refl|].
    eapply Permutation_trans; [apply perm_skip, IH | apply perm_swap].
Qed.

Lemma enqueue_entries (q : PriorityQueue.t NodePtr) x p :
  Permutation (queue_entries (PriorityQueue.enqueue q x p))
              (leaf_entries x ++ queue_entries q).
Proof.
  unfold queue_entries.
  change (leaf_entries x ++ flat_map (fun e => leaf_entries (fst e)) q)
    with (flat_map (fun e => leaf_entries (fst e)) ((x, p) :: q)).
  apply Permutation_flat_map, enqueue_permutation.
Qed.

Lemma enqueue_entry_ok (q : PriorityQueue.t NodePtr) x p :
  queue_entry_ok (x, p) -> Forall queue_entry_ok q ->
  Forall queue_entry_ok (PriorityQueue.enqueue q x p).
Proof.
  intros Hx Hq. apply Forall_forall. intros e He. apply enqueue_In in He.
  destruct He as [->|He]; [exact Hx|]. rewrite Forall_forall in Hq. auto.
Qed.

Lemma leaf_entries_node c zero one w :
  zero <> NULL -> leaf_entries (Node c zero one w) = leaf_entries zero ++ leaf_entries one.
Proof.
  intros Hz. destruct zero; [contradiction Hz; reflexivity | reflexivity].
Qed.

Lemma merged_node zero one :
  zero <> NULL -> one <> NULL -> weight zero <= weight one ->
  merged zero -> merged one ->
  merged (Node NOT_A_CHAR zero one (int_wrap (weight zero + weight one))).
Proof.
  intros Hz Ho Hle Hmz Hmo.
  destruct zero as [|cz zz zo zw]; [contradiction Hz; reflexivity|].
  cbn [merged]. repeat split; assumption.
Qed.

(** The queue [enqueueNodes] fills: one leaf per key, weighted and
    prioritised with the frequency the table holds for the key. *)
Lemma enqueueNodes_queue (m : Map.t Z) : forall (ks : list Z) q,
  queue_sorted q -> Forall queue_entry_ok q ->
  let q' :=
    fold_left
      (fun q currChar =>
         let weight := Map.at_ 0 m currChar in
         PriorityQueue.enqueue q (Node currChar NULL NULL weight) weight)
      ks q in
  queue_sorted q' /\ Forall queue_entry_ok q' /\
  Permutation (queue_entries q')
              (map (fun k => (k, Map.at_ 0 m k)) ks ++ queue_entries q).
Proof.
  induction ks as [|k ks IH]; intros q Hs Hok; cbn zeta; cbn [fold_left map app].
  - repeat split; [exact Hs | exact Hok | apply Permutation_refl].
  - set (leaf := Node k NULL NULL (Map.at_ 0 m k)).
    destruct (IH (PriorityQueue.enqueue q leaf (Map.at_ 0 m k))) as (Hs' & Hok' & Hp).
    + apply enqueue_sorted, Hs.
    + apply enqueue_entry_ok; [|exact Hok].
      split; [discriminate | split; [reflexivity | exact I]].
    + cbn zeta in *. repeat split; [exact Hs' | exact Hok' |].
      eapply Permutation_trans; [exact Hp|].
      eapply Permutation_trans; [apply Permutation_app_head, enqueue_entries|].
      change (leaf_entries leaf) with [(k, Map.at_ 0 m k)]. cbn [app].
      apply Permutation_sym, Permutation_middle.
Qed.

(** [mergeNodes] on such a queue: the tree it returns has the leaves of the
    queue's trees and is merged as the loop merges. *)
Lemma mergeNodes_loop_weights : forall fuel (q : PriorityQueue.t NodePtr),
  (length q <= fuel)%nat -> q <> [] ->
  queue_sorted q -> Forall queue_entry_ok q ->
  exists t, mergeNodes_loop fuel q = Ok t /\ t <> NULL /\ merged t /\
            Permutation (leaf_entries t) (queue_entries q).
Proof.
  induction fuel as [|fuel IH]; intros q Hlen Hne Hs Hok.
  - destruct q; [contradiction Hne; reflexivity | cbn [length] in Hlen; lia].
  - destruct q as [|[x p] [|[y p'] r]]; [contradiction Hne; reflexivity | |].
    + inversion Hok as [|? ? (Hx & _ & Hm) _]; subst. cbn [fst] in *.
      exists x. repeat split; [exact Hx | exact Hm |].
      unfold queue_entries. cbn [flat_map fst]. rewrite app_nil_r.
      apply Permutation_refl.
    + inversion Hok as [|? ? (Hx & Hpx & Hmx) Hok1]; subst.
      inversion Hok1 as [|? ? (Hy & Hpy & Hmy) Hokr]; subst.
      cbn [fst snd] in *.
      destruct Hs as [Hlow [_ Hsr]].
      pose proof (Hlow (y, p') (or_introl eq_refl)) as Hle. cbn [snd] in Hle.
      cbn [mergeNodes_loop].
      destruct (PriorityQueue.size ((x, p) :: (y, p') :: r) =? 1) eqn:Hsz.
      { apply Z.eqb_eq in Hsz. unfold PriorityQueue.size in Hsz.
        cbn [length] in Hsz. lia. }
      cbn [PriorityQueue.dequeue bind].
      assert (Hwx : weight_of x = Ok (weight x))
        by (destruct x; [contradiction Hx|]; reflexivity).
      assert (Hwy : weight_of y = Ok (weight y))
        by (destruct y; [contradiction Hy|]; reflexivity).
      rewrite Hwx, Hwy. cbn [bind].
      set (w := int_wrap (weight x + weight y)).
      set (n := Node NOT_A_CHAR x y w).
      destruct (IH (PriorityQueue.enqueue r n w)) as (t & Ht & Hnn & Hmt & Hperm).
      * rewrite enqueue_length. cbn [length] in Hlen. lia.
      * intros E. pose proof (enqueue_length r n w) as L. rewrite E in L. discriminate.
      * apply enqueue_sorted, Hsr.
      * apply enqueue_entry_ok; [|exact Hokr].
        split; [discriminate | split; [reflexivity|]]. cbn [fst]. unfold n, w.
        apply merged_node; try assumption. lia.
      * exists t. repeat split; [exact Ht | exact Hnn | exact Hmt |].
        eapply Permutation_trans; [exact Hperm|].
        eapply Permutation_trans; [apply enqueue_entries|].
        unfold n. rewrite leaf_entries_node by exact Hx.
        unfold queue_entries. cbn [flat_map fst]. rewrite <- app_assoc.
        apply Permutation_refl.
Qed.

Lemma buildEncodingTree_weights (frequencies : Map.t Z) :
  frequencies <> [] ->
  ordered frequencies = true ->
  exists t,
    buildEncodingTree frequencies = Ok t /\
    Permutation (leaf_entries t) frequencies /\
    merged t.
Proof.
  intros Hne Hm. unfold buildEncodingTree, enqueueNodes, mergeNodes.
  destruct (enqueueNodes_queue frequencies (Map.keys frequencies) PriorityQueue.empty)
    as (Hs & Hok & Hp); [exact I | constructor |].
  cbn zeta in *.
  set (q := fold_left _ (Map.keys frequencies) PriorityQueue.empty) in *.
  rewrite (entries_at 0 frequencies Hm) in Hp.
  unfold PriorityQueue.empty, queue_entries at 2 in Hp. cbn [flat_map] in Hp.
  rewrite app_nil_r in Hp.
  destruct (mergeNodes_loop_weights (S (length q)) q) as (t & Ht & _ & Hmt & Hperm);
    [lia | | exact Hs | exact Hok |].
  - intros E. rewrite E in Hp. apply Permutation_nil in Hp. congruence.
  - exists t. split; [exact Ht|]. split; [|exact Hmt].
    eapply Permutation_trans; [exact Hperm | exact Hp].
Qed.

(** X4.  For a table in key order that is not empty, the leaves of the
    tree [buildEncodingTree] returns carry exactly the entries of the table
    (symbol and frequency); every other node is marked [NOT_A_CHAR], has
    two children, weighs the [int] sum of their weights, and its [zero]
    child is not heavier than its [one] child. *)
Theorem X4_built_tree_weights (frequencies : Map.t Z) :
  frequencies <> [] ->
  ordered frequencies = true ->
  exists t,
    buildEncodingTree frequencies = Ok t /\
    Permutation (leaf_entries t) frequencies /\
    merged t.
Proof. apply buildEncodingTree_weights. Qed.

Lemma X4_built_tree_weights_witness :
  table_aab <> [] /\
  ordered table_aab = true /\
  exists t,
    buildEncodingTree table_aab = Ok t /\
    Permutation (leaf_entries t) table_aab /\
    merged t.
Proof.
  split; [discriminate|]. split; [reflexivity|].
  apply (X4_built_tree_weights table_aab); [discriminate | reflexivity].
Defined.

Lemma int_wrap_involutive a : int_wrap (int_wrap a) = int_wrap a.
Proof. apply int_wrap_id, int_wrap_in_int. Qed.

Lemma int_wrap_add_congr a a' b b' :
  int_wrap a = int_wrap a' -> int_wrap b = int_wrap b' ->
  int_wrap (a + b) = int_wrap (a' + b').
Proof.
  intros Ha Hb.
  rewrite <- (int_wrap_add_l a b), Ha, int_wrap_add_l.
  rewrite (Z.add_comm a' b), <- (int_wrap_add_l b a'), Hb, int_wrap_add_l.
  f_equal. lia.
Qed.

Lemma total_app a b : total (a ++ b) = total a + total b.
Proof.
  unfold total. induction a as [|e a IH]; cbn [app fold_right]; lia.
Qed.

Lemma total_permutation a b : Permutation a b -> total a = total b.
Proof.
  unfold total. induction 1; cbn [fold_right]; lia.
Qed.

(** The weight at the root of a merged tree is the [int] sum of the
    weights at its leaves. *)
Lemma merged_weight_total t :
  t <> NULL -> merged t -> int_wrap (weight t) = int_wrap (total (leaf_entries t)).
Proof.
  induction t as [|c zero IHz one IHo w]; intros Hnn Hm;
    [contradiction Hnn; reflexivity|].
  destruct zero as [|cz zz zo zw].
  - destruct one as [|co oz oo ow].
    + cbn. f_equal. lia.
    + cbn [merged] in Hm. destruct Hm as (_ & Hz & _). contradiction Hz. reflexivity.
  - cbn [merged] in Hm. destruct Hm as (_ & Hz & Ho & Hw & _ & Hmz & Hmo).
    rewrite leaf_entries_node by exact Hz. rewrite total_app.
    cbn [weight] in *. rewrite Hw, int_wrap_involutive.
    apply int_wrap_add_congr; auto.
Qed.

Lemma get_below_none {V : Type} (m : Map.t V) k :
  (forall e, In e m -> k < fst e) -> Map.get m k = None.
Proof.
  induction m as [|[k' v'] r IH]; intros H; cbn [Map.get]; [reflexivity|].
  pose proof (H (k', v') (or_introl eq_refl)) as Hk. cbn [fst] in Hk.
  destruct (k =? k') eqn:E; [apply Z.eqb_eq in E; lia|].
  apply IH. intros e He. apply H. right. exact He.
Qed.

(** Storing a frequency replaces what the table held for the key. *)
Lemma total_put (m : Map.t Z) k v :
  ordered m = true -> total (Map.put m k v) = total m - Map.at_ 0 m k + v.
Proof.
  unfold Map.at_.
  induction m as [|[k' v'] r IH]; intros Hm; cbn [Map.put Map.get].
  - cbn. lia.
  - apply ordered_cons in Hm. destruct Hm as [Hlow Hr].
    destruct (k <? k') eqn:Hlt; [|destruct (k =? k') eqn:Heq].
    + apply Z.ltb_lt in Hlt.
      replace (k =? k') with false by (symmetry; apply Z.eqb_neq; lia).
      rewrite get_below_none.
      * unfold total. cbn [fold_right snd]. lia.
      * intros e He. specialize (Hlow e He). lia.
    + unfold total. cbn [fold_right snd]. lia.
    + specialize (IH Hr). unfold total in *. cbn [fold_right snd]. lia.
Qed.

Lemma getFrequencyTable_loop_total : forall chars (m : Map.t Z),
  ordered m = true ->
  ordered (getFrequencyTable_loop chars m) = true /\
  int_wrap (total (getFrequencyTable_loop chars m))
  = int_wrap (total m + Z.of_nat (length chars)).
Proof.
  induction chars as [|c chars IH]; intros m Hm; cbn [getFrequencyTable_loop length].
  - split; [exact Hm | f_equal; lia].
  - cbn zeta. set (x := ext_of_char c).
    assert (Hput : (if Map.containsKey m x
                    then Map.put m x (int_wrap (Map.at_ 0 m x + 1))
                    else Map.put m x 1)
                   = Map.put m x (int_wrap (Map.at_ 0 m x + 1))).
    { unfold Map.containsKey, Map.at_. destruct (Map.get m x); reflexivity. }
    rewrite Hput. clear Hput.
    destruct (IH (Map.put m x (int_wrap (Map.at_ 0 m x + 1)))) as [Ho Ht];
      [apply ordered_put, Hm|].
    split; [exact Ho|]. rewrite Ht, total_put by exact Hm.
    replace (total m - Map.at_ 0 m x + int_wrap (Map.at_ 0 m x + 1)
             + Z.of_nat (length chars))
      with (int_wrap (Map.at_ 0 m x + 1)
            + (total m - Map.at_ 0 m x + Z.of_nat (length chars))) by lia.
    rewrite int_wrap_add_l. f_equal. lia.
Qed.

(** X5.  Whatever the input, [buildEncodingTree] returns a tree for the
    table of [getFrequencyTable], and the weight at its root is the number
    of bytes of the input plus one (for the sentinel), as an [int]. *)
Theorem X5_root_weight_is_input_length (S : cstring) :
  exists t,
    buildEncodingTree (getFrequencyTable (open_in S)) = Ok t /\
    weight t = int_wrap (Z.of_nat (length S) + 1).
Proof.
  destruct (getFrequencyTable_spec S) as (Hm & Hfit & Hget & _ & Heof & _).
  set (m := getFrequencyTable (open_in S)) in *.
  assert (Hne : m <> []) by (intros E; rewrite E in Heof; exact Heof).
  destruct (buildEncodingTree_weights m Hne Hm) as (t & Ht & Hperm & Hmt).
  exists t. split; [exact Ht|].
  assert (Hnn : t <> NULL).
  { intros ->. exact (Hne (Permutation_nil Hperm)). }
  assert (Hint : int_wrap (weight t) = weight t).
  { destruct t as [|c zero one w]; [contradiction Hnn; reflexivity|].
    destruct zero as [|cz zz zo zw].
    - destruct one as [|co oz oo ow].
      + apply Permutation_length_1_inv in Hperm.
        assert (Hin : In (c, w) m) by (rewrite Hperm; left; reflexivity).
        cbn [weight]. apply int_wrap_id.
        destruct (Hfit _ Hin) as [E|[_ Hw]]; [|exact Hw].
        cbn [fst] in E. subst c. apply get_In in Hget.
        rewrite Hperm in Hget. destruct Hget as [E|[]].
        injection E as ->. unfold in_int, INT_MIN, INT_MAX. lia.
      + cbn [merged] in Hmt. destruct Hmt as (_ & Hz & _). contradiction Hz. reflexivity.
    - cbn [merged] in Hmt. destruct Hmt as (_ & _ & _ & Hw & _).
      cbn [weight]. rewrite Hw. apply int_wrap_involutive. }
  rewrite <- Hint, (merged_weight_total t Hnn Hmt), (total_permutation _ _ Hperm).
  unfold m, getFrequencyTable, open_in. cbn [unread].
  destruct (getFrequencyTable_loop_total S Map.empty eq_refl) as [Ho Htot].
  destruct (getFrequencyTable_loop_spec S Map.empty eq_refl (Forall_nil _))
    as (_ & Hf & _ & _).
  rewrite total_put by exact Ho.
  assert (Hnone : Map.at_ 0 (getFrequencyTable_loop S Map.empty) PSEUDO_EOF = 0).
  { unfold Map.at_.
    destruct (Map.get (getFrequencyTable_loop S Map.empty) PSEUDO_EOF) as [v|] eqn:E;
      [|reflexivity].
    apply get_In in E. rewrite Forall_forall in Hf. destruct (Hf _ E) as [Hk _].
    cbn [fst] in Hk. unfold PSEUDO_EOF in Hk. lia. }
  rewrite Hnone.
  replace (total (getFrequencyTable_loop S Map.empty) - 0 + 1)
    with (total (getFrequencyTable_loop S Map.empty) + 1) by lia.
  rewrite <- int_wrap_add_l, Htot, int_wrap_add_l.
  f_equal; unfold total, Map.empty; cbn [fold_right]; lia.
Qed.

Lemma ordered_keys_NoDup {V : Type} (m : Map.t V) :
  ordered m = true -> NoDup (Map.keys m).
Proof.
  induction m as [|[k v] r IH]; intros Hm; cbn [Map.keys map fst]; [constructor|].
  apply ordered_cons in Hm. destruct Hm as [Hlow Hr].
  constructor; [|exact (IH Hr)].
  intros Hin. apply in_map_iff in Hin. destruct Hin as (e & He & Hin).
  specialize (Hlow e Hin). lia.
Qed.

Lemma leaf_codes_nonempty t :
  (2 <= length (leaves t))%nat ->
  forall x p, In (x, p) (leaf_codes t) -> p <> [].
Proof.
  intros Hlen x p Hin.
  destruct t as [|c zero one w]; [destruct Hin|].
  destruct zero as [|cz zz zo zw]; [destruct one as [|co oz oo ow]|].
  - cbn in Hlen. lia.
  - cbn [leaf_codes] in Hin. intros ->. apply in_app_or in Hin.
    destruct Hin as [H|H]; apply in_map_iff in H; destruct H as (e & E & _);
      discriminate.
  - cbn [leaf_codes] in Hin. intros ->. apply in_app_or in Hin.
    destruct Hin as [H|H]; apply in_map_iff in H; destruct H as (e & E & _);
      discriminate.
Qed.

(** X6.  For a table in key order that is not empty, no two leaves of the
    built tree carry the same symbol; when the table has at least two
    entries, every leaf lies below the root, so that every code has at
    least one bit. *)
Theorem X6_built_tree_symbols_unique (frequencies : Map.t Z) :
  frequencies <> [] ->
  ordered frequencies = true ->
  exists t,
    buildEncodingTree frequencies = Ok t /\
    NoDup (leaves t) /\
    ((2 <= length frequencies)%nat ->
     forall x p, In (x, p) (leaf_codes t) -> p <> []).
Proof.
  intros Hne Hm.
  destruct (buildEncodingTree_returns frequencies Hne) as (t & Ht & _ & Hperm).
  exists t. split; [exact Ht|]. split.
  - apply (Permutation_NoDup (Permutation_sym Hperm)), ordered_keys_NoDup, Hm.
  - intros Hlen. apply leaf_codes_nonempty.
    rewrite (Permutation_length Hperm). unfold Map.keys. rewrite length_map. exact Hlen.
Qed.

Lemma X6_built_tree_symbols_unique_witness :
  table_aab <> [] /\
  ordered table_aab = true /\
  exists t,
    buildEncodingTree table_aab = Ok t /\
    NoDup (leaves t) /\
    ((2 <= length table_aab)%nat ->
     forall x p, In (x, p) (leaf_codes t) -> p <> []).
Proof.
  split; [discriminate|]. split; [reflexivity|].
  apply (X6_built_tree_symbols_unique table_aab); [discriminate | reflexivity].
Defined.

(** ** Codes *)

Lemma leaves_not_marker x : forall t, well_formed t = true ->
  In x (leaves t) -> x <> NOT_A_CHAR.
Proof.
  apply (well_formed_ind (fun t => In x (leaves t) -> x <> NOT_A_CHAR)).
  - intros c w Hc [<-|[]]. exact Hc.
  - intros zero one w Hz Ho IHz IHo Hin.
    rewrite leaves_internal in Hin by exact Hz.
    apply in_app_or in Hin. tauto.
Qed.

Lemma text_of_bits_binary p :
  Forall (fun ch => ch = "0"%char \/ ch = "1"%char) (text_of_bits p).
Proof.
  induction p as [|[] p IH]; cbn [text_of_bits map]; constructor; auto.
Qed.

(** X7.  On an encoding tree, for a symbol at a leaf,
    [searchCharacterInTree] returns a text of the characters 0 and 1 which
    [isCorrectCode] accepts and which [searchCodeInTree] takes back to the
    symbol. *)
Theorem X7_code_of_symbol_leads_back (t : NodePtr) (x : ext_char) :
  well_formed t = true ->
  In x (leaves t) ->
  exists code,
    searchCharacterInTree t x = Ok code /\
    Forall (fun ch => ch = "0"%char \/ ch = "1"%char) code /\
    isCorrectCode t code x = Ok true /\
    searchCodeInTree t code = Ok x.
Proof.
  intros Hwf Hin.
  pose proof (leaves_not_marker x t Hwf Hin) as Hx.
  destruct (searchCharacterInTree_spec x Hx t Hwf) as (p & Hs & [Hp | [_ Hnin]]);
    [|contradiction].
  exists (text_of_bits p). split; [exact Hs|]. split; [apply text_of_bits_binary|].
  split; [exact (isCorrectCode_leaf_code x t p Hwf Hp)|].
  unfold searchCodeInTree.
  destruct (follow_leaf_code x t Hwf p Hp) as [w ->]. reflexivity.
Qed.

Lemma X7_code_of_symbol_leads_back_witness :
  well_formed tree_aab = true /\
  In 98 (leaves tree_aab) /\
  exists code,
    searchCharacterInTree tree_aab 98 = Ok code /\
    Forall (fun ch => ch = "0"%char \/ ch = "1"%char) code /\
    isCorrectCode tree_aab code 98 = Ok true /\
    searchCodeInTree tree_aab code = Ok 98.
Proof.
  assert (H : In 98 (leaves tree_aab)) by (right; left; reflexivity).
  split; [reflexivity|]. split; [exact H|].
  apply (X7_code_of_symbol_leads_back tree_aab 98); [reflexivity | exact H].
Defined.

Lemma searchCodeInTree_inside x : forall t, well_formed t = true ->
  forall p q r, In (x, p) (leaf_codes t) -> p = q ++ r -> r <> [] ->
  searchCodeInTree t (text_of_bits q) = Ok NOT_A_CHAR.
Proof.
  apply (well_formed_ind
    (fun t => forall p q r, In (x, p) (leaf_codes t) -> p = q ++ r -> r <> [] ->
                            searchCodeInTree t (text_of_bits q) = Ok NOT_A_CHAR)).
  - intros c w _ p q r [E|[]] Hp Hr. injection E as _ <-.
    symmetry in Hp. apply app_eq_nil in Hp. tauto.
  - intros zero one w Hz Ho IHz IHo p q r Hin Hp Hr.
    destruct q as [|b q]; [reflexivity|].
    rewrite leaf_codes_internal in Hin by exact Hz.
    unfold searchCodeInTree in *. cbn [text_of_bits map].
    change (map (fun b0 : bool => if b0 then "1"%char else "0"%char) q)
      with (text_of_bits q).
    rewrite follow_branch.
    apply in_app_or in Hin. destruct Hin as [Hin|Hin];
      apply in_map_iff in Hin; destruct Hin as ([x' p'] & E & Hin);
      cbn [fst snd] in E; injection E as -> <-;
      cbn [app] in Hp; injection Hp as <- Hp.
    + exact (IHz p' q r Hin Hp Hr).
    + exact (IHo p' q r Hin Hp Hr).
Qed.

(** X8.  On an encoding tree, every text that stops short of a leaf's
    code makes [searchCodeInTree] return [NOT_A_CHAR]: the decoder, which
    searches after every bit, writes nothing and does not stop before the
    code of a symbol is complete. *)
Theorem X8_unfinished_code_is_no_symbol
    (t : NodePtr) (x : ext_char) (q r : list bool) :
  well_formed t = true ->
  In (x, q ++ r) (leaf_codes t) ->
  r <> [] ->
  searchCodeInTree t (text_of_bits q) = Ok NOT_A_CHAR.
Proof.
  intros Hwf Hin Hr.
  exact (searchCodeInTree_inside x t Hwf (q ++ r) q r Hin eq_refl Hr).
Qed.

Lemma X8_unfinished_code_is_no_symbol_witness :
  well_formed tree_aab = true /\
  In (98, [true] ++ [false]) (leaf_codes tree_aab) /\
  [false] <> [] /\
  searchCodeInTree tree_aab (text_of_bits [true]) = Ok NOT_A_CHAR.
Proof.
  assert (H : In (98, [true] ++ [false]) (leaf_codes tree_aab))
    by (right; left; reflexivity).
  split; [reflexivity|]. split; [exact H|]. split; [discriminate|].
  apply (X8_unfinished_code_is_no_symbol tree_aab 98 [true] [false]);
    [reflexivity | exact H | discriminate].
Defined.

(** ** The decoder at its edges *)

Lemma integerToString_nonempty z : integerToString z <> [].
Proof.
  unfold integerToString. destruct z as [|p|p]; cbn [Z.to_int]; try discriminate.
  destruct (chars_of_uint_head (Pos.to_uint p)
              (DecimalPos.Unsigned.to_uint_nonnil p)) as (c & r & -> & _).
  discriminate.
Qed.

Lemma searchCodeInTree_below_single_node c w code :
  code <> [] ->
  searchCodeInTree (Node c NULL NULL w) code = Abort NullDereference.
Proof.
  destruct code as [|ch rest]; [intros H; contradiction H; reflexivity|].
  intros _. unfold searchCodeInTree. cbn [follow].
  destruct (Ascii.eqb ch "0"); cbn [zero_of one_of deref bind];
    destruct rest as [|ch' rest]; cbn [follow]; try reflexivity;
    destruct (Ascii.eqb ch' "0"); reflexivity.
Qed.

(** X9.  On a tree that is a single node (the tree of a table with one
    entry), [decodeFile] never returns normally: whatever the bit source
    holds, the first round reads a bit, steps below the node and
    dereferences the null pointer, with nothing written. *)
Theorem X9_decodeFile_single_node_tree
    (c : ext_char) (w : Z) (fuel : nat) (infile : ibstream) (file : ostream) :
  decodeFile (S fuel) infile (Node c NULL NULL w) file
  = (Abort NullDereference, snd (readBit infile), file).
Proof.
  unfold decodeFile. cbn [decodeFile_loop].
  destruct (readBit infile) as [bit infile1]. cbn [app snd].
  rewrite searchCodeInTree_below_single_node by apply integerToString_nonempty.
  reflexivity.
Qed.

(** X10.  [decodeFile] does not test the bit it reads.  When the bit
    source is exhausted, [readBit] returns [EOF], whose text "-1" joins the
    code; [searchCodeInTree] takes its two characters for two steps to
    [one], as it takes "11". *)
Theorem X10_exhausted_source_read_as_ones
    (t : NodePtr) (code : cstring) (infile : ibstream) :
  pending infile = [] ->
  fst (readBit infile) = EOF /\
  searchCodeInTree t (code ++ integerToString (fst (readBit infile)))
  = searchCodeInTree t (code ++ lit "11").
Proof.
  intros Hp. pose proof (readBit_pending infile) as H. rewrite Hp in H.
  destruct H as [-> _]. split; [reflexivity|].
  unfold searchCodeInTree. rewrite !follow_app.
  destruct (follow t code) as [n|e]; reflexivity.
Qed.

Lemma X10_exhausted_source_read_as_ones_witness :
  pending (open_in []) = [] /\
  fst (readBit (open_in [])) = EOF /\
  searchCodeInTree tree_aab ([] ++ integerToString (fst (readBit (open_in []))))
  = searchCodeInTree tree_aab ([] ++ lit "11").
Proof.
  split; [reflexivity|].
  apply (X10_exhausted_source_read_as_ones tree_aab [] (open_in [])). reflexivity.
Defined.

Lemma decodeFile_loop_appends : forall fuel infile t code file,
  exists suffix, snd (decodeFile_loop fuel infile t code file) = file ++ suffix.
Proof.
  induction fuel as [|fuel IH]; intros infile t code file.
  - exists []. rewrite app_nil_r. reflexivity.
  - cbn [decodeFile_loop]. destruct (readBit infile) as [bit infile1].
    destruct (searchCodeInTree t (code ++ integerToString bit)) as [ch|e].
    + destruct (ch =? PSEUDO_EOF); [exists []; rewrite app_nil_r; reflexivity|].
      destruct (negb (ch =? NOT_A_CHAR)); [|apply IH].
      destruct (IH infile1 t [] (file ++ [char_of_ext ch])) as [suffix Hs].
      exists (char_of_ext ch :: suffix). rewrite Hs, <- app_assoc. reflexivity.
    + exists []. rewrite app_nil_r. reflexivity.
Qed.

(** X11.  [decodeFile] only appends: however a run ends, what the output
    stream held before is still there, followed by what the run wrote. *)
Theorem X11_decodeFile_only_appends
    (fuel : nat) (infile : ibstream) (t : NodePtr) (file : ostream) :
  exists suffix, snd (decodeFile fuel infile t file) = file ++ suffix.
Proof. apply decodeFile_loop_appends. Qed.

(** ** The encoder *)

(** X12.  On an encoding tree, [encodeFile] returns normally and writes,
    for every byte of the input in order, the bits of the text
    [searchCharacterInTree] returns for it, and then those for
    [PSEUDO_EOF]; its table of the codes already found changes nothing of
    what is written. *)
Theorem X12_encodeFile_writes_codes_in_order
    (t : NodePtr) (infile : ibstream) (outfile : obstream) :
  well_formed t = true ->
  encodeFile infile t outfile
  = (Ok tt, fold_left writeBit (encoding t (unread infile)) outfile).
Proof. apply encodeFile_bits. Qed.

Lemma X12_encodeFile_writes_codes_in_order_witness :
  well_formed tree_aab = true /\
  encodeFile (open_in (lit "aab")) tree_aab open_out
  = (Ok tt, fold_left writeBit (encoding tree_aab (unread (open_in (lit "aab")))) open_out).
Proof.
  split; [reflexivity|].
  apply (X12_encodeFile_writes_codes_in_order tree_aab (open_in (lit "aab")) open_out).
  reflexivity.
Defined.

(** ** The header reader *)




(** ** Compressing and decompressing, as a whole *)

Lemma write_bits_padding (bits : list bool) : forall o,
  (length (curByte o) < 8)%nat ->
  exists bytes k,
    (k < 8)%nat /\
    contents (fold_left writeBit bits o) = written o ++ bytes /\
    flat_map bits_of_char bytes = curByte o ++ bits ++ repeat false k.
Proof.
  induction bits as [|b bits IH]; intros o Hlen; cbn [fold_left].
  - unfold contents. destruct (curByte o) as [|b0 cb] eqn:Hcb.
    + exists [], 0%nat. rewrite app_nil_r. repeat split. lia.
    + exists [char_of_bits (b0 :: cb)], (8 - length (b0 :: cb))%nat.
      split; [cbn [length]; lia|]. split; [reflexivity|].
      cbn [flat_map]. rewrite app_nil_r. apply bits_of_char_of_bits. lia.
  - destruct (writeBit_spec o b Hlen) as (Hlen' & Hbits & bytes0 & Hw).
    destruct (IH (writeBit o b) Hlen') as (bytes & k & Hk & Hc & Hf).
    exists (bytes0 ++ bytes), k. split; [exact Hk|].
    rewrite Hc, Hw, <- app_assoc. split; [reflexivity|].
    rewrite Hw, flat_map_app in Hbits.
    rewrite flat_map_app, Hf, app_assoc.
    rewrite <- app_assoc in Hbits. apply app_inv_head in Hbits.
    rewrite Hbits, <- !app_assoc. reflexivity.
Qed.

(** X14.  [compress] returns normally on every input.  The file it leaves
    is the header of the frequency table followed by the bits of the
    encoding, eight to a byte, the last byte filled up with fewer than eight
    zero bits. *)
Theorem X14_compress_file_layout (S : cstring) :
  exists t bytes k,
    buildEncodingTree (getFrequencyTable (open_in S)) = Ok t /\
    fst (compress (open_in S) open_out) = Ok tt /\
    compressed S = header_layout (getFrequencyTable (open_in S)) ++ bytes /\
    flat_map bits_of_char bytes = encoding t S ++ repeat false k /\
    (k < 8)%nat.
Proof.
  destruct (getFrequencyTable_spec S) as (Hm & Hfit & Hget & Hchars & Heof & Hnot).
  set (m := getFrequencyTable (open_in S)) in *.
  assert (Hne : m <> []) by (intros E; rewrite E in Heof; exact Heof).
  destruct (buildEncodingTree_well_formed m Hne Hnot) as (t & Ht & Hwf & _).
  assert (Hkey : Map.containsKey m PSEUDO_EOF = true)
    by (unfold Map.containsKey; rewrite Hget; reflexivity).
  assert (Hsize : in_int (Map.size m)).
  { pose proof (table_fits_size m Hm Hfit). unfold in_int, INT_MIN, INT_MAX. lia. }
  destruct (writeFileHeader_contents open_out m Hm Hkey Hsize) as (Hok & Hcont & Hcur).
  destruct (writeFileHeader open_out m) as [r o1] eqn:Hw. cbn [fst snd] in *. subst r.
  assert (Hwritten : written o1 = header_layout m).
  { unfold contents in Hcont. rewrite Hcur in Hcont. exact Hcont. }
  destruct (write_bits_padding (encoding t S) o1) as (bytes & k & Hk & Hc & Hf);
    [rewrite Hcur; cbn; lia|].
  rewrite Hcur, Hwritten in *. cbn [app] in Hf.
  exists t, bytes, k.
  assert (Hcompress : compress (open_in S) open_out
                      = (Ok tt, fold_left writeBit (encoding t S) o1)).
  { unfold compress. fold m. rewrite Hw, Ht.
    rewrite (encodeFile_bits t _ o1 Hwf). cbn [rewind open_in whole unread].
    rewrite (freeTree_well_formed t Hwf). reflexivity. }
  unfold compressed. rewrite Hcompress. cbn [fst snd]. auto 10.
Qed.

(** X15.  [readFileHeader], on the file [compress] leaves for any input,
    the empty one too, returns the frequency table [compress] counted and
    leaves the stream at the body: the bits still to read are the encoding
    and the padding. *)
Theorem X15_header_of_compressed_file (S : cstring) :
  exists rest t k,
    readFileHeader (open_in (compressed S))
    = Ok (getFrequencyTable (open_in S), rest) /\
    buildEncodingTree (getFrequencyTable (open_in S)) = Ok t /\
    pending rest = encoding t S ++ repeat false k.
Proof.
  destruct (getFrequencyTable_spec S) as (Hm & Hfit & Hget & _).
  destruct (compress_spec S) as (t & bytes & k & Ht & _ & _ & _ & Hfile & Hbits).
  eexists. exists t, k. unfold open_in. rewrite Hfile.
  rewrite (header_round_trip _ _ bytes Hm Hfit Hget).
  split; [reflexivity|]. split; [exact Ht|].
  unfold pending. cbn [curBits unread app]. exact Hbits.
Qed.

(** X16.  For every input that is not empty, [compress] returns normally
    and [decompress], given enough fuel for the decoding loop, returns
    normally on the file [compress] left, with exactly the input written. *)
Theorem X16_round_trip_of_nonempty_input (S : cstring) :
  S <> [] ->
  fst (compress (open_in S) open_out) = Ok tt /\
  exists n, forall fuel, (n <= fuel)%nat ->
    decompressed fuel (compressed S) = (Ok tt, S).
Proof. apply round_trip_nonempty. Qed.

Lemma X16_round_trip_of_nonempty_input_witness :
  lit "hello world" <> [] /\
  fst (compress (open_in (lit "hello world")) open_out) = Ok tt /\
  exists n, forall fuel, (n <= fuel)%nat ->
    decompressed fuel (compressed (lit "hello world")) = (Ok tt, lit "hello world").
Proof.
  split; [discriminate|].
  apply (X16_round_trip_of_nonempty_input (lit "hello world")). discriminate.
Defined.

(** ** The decoder against the reference decoder *)

(** X17.  On every encoding tree other than the lone sentinel leaf, and
    every bit source on whose bits the reference decoder of the spec stops
    at the sentinel, [decodeFile], given enough fuel for its loop, returns
    normally, has written what the reference decoder writes and leaves
    unread the bits the reference decoder leaves. *)
Theorem X17_decodeFile_refines_reference_below_root
    (t : NodePtr) (infile : ibstream) (file out : ostream) (rest : list bool) :
  well_formed t = true ->
  character_of t <> Ok PSEUDO_EOF ->
  reference_decoder t (pending infile) file = Some (out, rest) ->
  exists n, forall fuel, (n <= fuel)%nat ->
    exists infile',
      decodeFile fuel infile t file = (Ok tt, infile', out) /\
      pending infile' = rest.
Proof.
  intros Hwf Hroot Href.
  destruct (well_formed_cases t Hwf) as
    [(c & w & -> & _) | (zero & one & w & Ht & Hz & Ho)].
  - cbn [reference_decoder] in Href. destruct (c =? PSEUDO_EOF) eqn:Hc; [|discriminate].
    apply Z.eqb_eq in Hc. subst c. contradiction Hroot. reflexivity.
  - assert (Hloop : reference_decode t t (pending infile) file = Some (out, rest)).
    { rewrite Ht in Href |- *. destruct zero; [discriminate | exact Href]. }
    exists (length (pending infile)). intros fuel Hfuel. unfold decodeFile.
    change (@nil ascii) with (text_of_bits []).
    apply (decodeFile_loop_refines t zero one w Ht Hz Ho (pending infile) fuel infile
             [] file NOT_A_CHAR zero one w out rest); try assumption.
    + reflexivity.
    + rewrite Ht. reflexivity.
    + rewrite <- Ht. exact Hloop.
Qed.

Lemma X17_decodeFile_refines_reference_below_root_witness :
  well_formed tree_aab = true /\
  character_of tree_aab <> Ok PSEUDO_EOF /\
  reference_decoder tree_aab (pending (open_in (lit "4"))) []
  = Some (lit "aab", [false; false]) /\
  exists n, forall fuel, (n <= fuel)%nat ->
    exists infile',
      decodeFile fuel (open_in (lit "4")) tree_aab [] = (Ok tt, infile', lit "aab") /\
      pending infile' = [false; false].
Proof.
  split; [reflexivity|]. split; [discriminate|]. split; [reflexivity|].
  apply (X17_decodeFile_refines_reference_below_root tree_aab (open_in (lit "4")) []
           (lit "aab") [false; false]); [reflexivity | discriminate | reflexivity].
Defined.
